(** * Milaidy: hook dispatch and inbound queueing

    A shallow embedding of
    - [src/hooks/registry.ts]      (module [Hooks]): the process-wide hook
      registry with [registerHook], [clearHooks], [triggerHook] and
      [createHookEvent];
    - [src/config/types.messages.ts] (module [Messages]): the queue
      configuration types [QueueMode], [QueueDropPolicy], [QueueConfig];
    - the inbound queue controller (module [Queue]), which the repository
      only declares the configuration of;
    - [apps/ui/src/ui/navigation.ts] (module [Navigation]),
      [src/api/plugin-validation.ts] (module [PluginValidation]),
      [src/terminal/links.ts] (module [Links]), [src/version.ts] (module
      [Version]), the workspace context provider (module [Workspace]) and
      the environment loop of the configuration loader (module
      [ConfigEnv]), over strings as sequences of UTF-16 code units (module
      [JS]).

    JavaScript values are modelled the way the code uses them: the registry
    is a [Map] from strings to array references, arrays live in a store and
    are mutated in place by [push], handler closures are references whose
    behaviour is supplied by the environment, and an [async] function is a
    state transformer that either returns or throws. *)

From stdpp Require Import base option list gmap strings pretty.

(* ===================================================================== *)
(** * hooks/registry.ts *)
(* ===================================================================== *)

Module Hooks.

(** A handler closure is a reference value: two registrations of the same
    function are the same reference, two different functions are not. *)
Abbreviation HookHandler := positive (only parsing).

(** A JavaScript array is a reference to a mutable cell of the store. *)
Abbreviation ArrayRef := positive (only parsing).

(** Modelled from the spec: [HookEvent] is declared in hooks/types.ts, which
    is not among the files covered here. The fields are those that
    [createHookEvent] fills in; [type] is used as a key of a
    [Map<string, _>], hence a string. *)
Record HookEvent := {
  type : string;
  action : string;
  sessionKey : string;
  timestamp : Z;
  messages : list string;
  context : gmap string string
}.

(** [const registry = new Map<string, HookHandler[]>()].
    [registry] maps an event key to the array stored under it, [arrays]
    holds the contents of every array allocated so far. *)
Record Store := {
  registry : gmap string ArrayRef;
  arrays : gmap ArrayRef (list HookHandler)
}.

(** The registry when the module is loaded. *)
Definition initial : Store := {| registry := ∅; arrays := ∅ |}.

(** [registry.get(key)] followed by a read of the array it returns;
    [None] is [undefined]. *)
Definition get (key : string) (s : Store) : option (list HookHandler) :=
  a ← registry s !! key; arrays s !! a.

(** The handlers currently registered under [key], in array order. *)
Definition handlersOf (key : string) (s : Store) : list HookHandler :=
  default [] (get key s).

(** <<
    const handlers = registry.get(eventKey) ?? [];
    handlers.push(handler);
    registry.set(eventKey, handlers);
    >>
    When the key is present, [handlers] is the array held by the map and
    [push] changes it in place; otherwise a new array is allocated. *)
Definition registerHook (eventKey : string) (handler : HookHandler)
    (s : Store) : Store :=
  match registry s !! eventKey with
  | Some a =>
      {| registry := <[eventKey := a]> (registry s);
         arrays := alter (λ handlers, handlers ++ [handler]) a (arrays s) |}
  | None =>
      let a := fresh (dom (arrays s)) in
      {| registry := <[eventKey := a]> (registry s);
         arrays := <[a := [] ++ [handler]]> (arrays s) |}
  end.

(** [registry.clear()]: the map is emptied; arrays are not touched. *)
Definition clearHooks (s : Store) : Store :=
  {| registry := ∅; arrays := arrays s |}.

(** What a [catch] clause can receive:
    - an [Error] object whose [message] is the string [message];
    - any other value that [String(err)] renders, kept as its rendering;
    - a value for which computing the text of the log line throws
      instead: an object without [toString] such as
      [Object.create(null)], for which [String(err)] throws a
      [TypeError]; an [Error] whose [message] is a [Symbol] or an object
      with a throwing [toString], for which the template literal throws.
      [raised] is what that conversion throws.
    What a [toString] supplied by the handler does besides is counted
    with the effects of the handler, which it follows at once. *)
Inductive Thrown :=
| ThrownError (message : string)
| ThrownValue (rendering : string)
| ThrownUnrenderable (raised : Thrown).

(** How a call ends. *)
Inductive Completion (A : Type) :=
| Returned (a : A)
| Threw (err : Thrown).
Arguments Returned {A} a.
Arguments Threw {A} err.

(** The text that the [catch] clause puts into the log line,
    <<
    const msg = err instanceof Error ? err.message : String(err);
    ... `${msg}` ...
    >>
    or what computing it throws. *)
Definition errorText (err : Thrown) : Completion string :=
  match err with
  | ThrownError message => Returned message
  | ThrownValue rendering => Returned rendering
  | ThrownUnrenderable raised => Threw raised
  end.

(** The state a dispatch runs in: the module's own store, everything
    outside the module ([env]), and the record of the handler calls made,
    each with the key it was resolved under. *)
Record World (Ext : Type) := {
  store : Store;
  env : Ext;
  invoked : list (string * HookHandler)
}.
Arguments store {Ext} w.
Arguments env {Ext} w.
Arguments invoked {Ext} w.

(** Computations that read and write the world and return or throw. *)
Definition M (Ext A : Type) : Type := World Ext → World Ext * Completion A.

Definition ret {Ext A} (a : A) : M Ext A := λ w, (w, Returned a).

(** A step that does not touch the world and ends as [c] does. *)
Definition lift {Ext A} (c : Completion A) : M Ext A := λ w, (w, c).

Definition bind {Ext A B} (m : M Ext A) (k : A → M Ext B) : M Ext B :=
  λ w, match m w with
       | (w', Returned a) => k a w'
       | (w', Threw err) => (w', Threw err)
       end.

(** [try { body } catch (err) { handler }] *)
Definition try_catch {Ext A} (body : M Ext A) (handler : Thrown → M Ext A)
    : M Ext A :=
  λ w, match body w with
       | (w', Returned a) => (w', Returned a)
       | (w', Threw err) => handler err w'
       end.

Declare Scope hook_scope.
Delimit Scope hook_scope with hook.
Notation "m ;; k" := (bind m (λ _, k))
  (at level 100, k at level 200, right associativity) : hook_scope.

(** The character U+0022, which the log line puts around the key. *)
Definition dquote : string := String (Ascii.ascii_of_nat 34) EmptyString.

(** <<  `[hooks] Handler error for "${key}": ${msg}`  >> *)
Definition errorLine (key msg : string) : string :=
  "[hooks] Handler error for " +:+ dquote +:+ key +:+ dquote +:+ ": " +:+ msg.

(** <<  `${event.type}:${event.action}`  >> *)
Definition specificKey (event : HookEvent) : string :=
  type event +:+ ":" +:+ action event.

Definition generalKey (event : HookEvent) : string := type event.

(** <<
    for (const handler of source) handlers.push({ key, handler });
    >> *)
Fixpoint push_all (key : string) (source : list HookHandler)
    (handlers : list (string * HookHandler)) : list (string * HookHandler) :=
  match source with
  | [] => handlers
  | handler :: rest => push_all key rest (handlers ++ [(key, handler)])
  end.

(** The first half of [triggerHook]: the local array [handlers], filled
    from the two lookups before any handler runs. *)
Definition resolve (event : HookEvent) (s : Store)
    : list (string * HookHandler) :=
  let handlers := [] in
  let handlers :=
    match get (specificKey event) s with
    | Some specificHandlers =>
        push_all (specificKey event) specificHandlers handlers
    | None => handlers
    end in
  let handlers :=
    match get (generalKey event) s with
    | Some generalHandlers =>
        push_all (generalKey event) generalHandlers handlers
    | None => handlers
    end in
  handlers.

Section Dispatcher.

Context {Ext : Type}.

(** [logger.error] of @elizaos/core: an effect on the outside world,
    which returns or throws. *)
Variable logger_error : string → Ext → Ext * Completion unit.

(** What calling and awaiting a handler does: everything that happens
    between the call [handler(event)] and the moment the [await]
    resumes, including code of other tasks that the event loop runs in
    between. It may change the registry (through [registerHook] and
    [clearHooks], or in any other way) and the outside world, and ends
    by returning or by throwing (a rejected promise throws at the
    [await]). *)
Variable run :
  HookHandler → HookEvent → Store → Ext → Store * Ext * Completion unit.

(** [await handler(event)] *)
Definition invoke (key : string) (handler : HookHandler)
    (event : HookEvent) : M Ext unit :=
  λ w, let '(s, e, r) := run handler event (store w) (env w) in
       ({| store := s; env := e;
           invoked := invoked w ++ [(key, handler)] |}, r).

(** [logger.error(line)] *)
Definition log_error (line : string) : M Ext unit :=
  λ w, let '(e, r) := logger_error line (env w) in
       ({| store := store w; env := e; invoked := invoked w |}, r).

(** One turn of the loop body:
    <<
    try { await handler(event); }
    catch (err) {
      const msg = err instanceof Error ? err.message : String(err);
      logger.error(`[hooks] Handler error for "${key}": ${msg}`);
    }
    >>
    What the [catch] clause itself throws is not caught. *)
Definition attempt (event : HookEvent) (entry : string * HookHandler)
    : M Ext unit :=
  let '(key, handler) := entry in
  try_catch (invoke key handler event)
    (λ err, bind (lift (errorText err))
              (λ msg, log_error (errorLine key msg))).

(** [for (const { key, handler } of handlers) { ... }] *)
Fixpoint dispatch (handlers : list (string * HookHandler))
    (event : HookEvent) : M Ext unit :=
  match handlers with
  | [] => ret tt
  | entry :: rest => (attempt event entry ;; dispatch rest event)%hook
  end.

(** [export async function triggerHook(event: HookEvent): Promise<void>] *)
Definition triggerHook (event : HookEvent) : M Ext unit :=
  λ w, let handlers := resolve event (store w) in
       if (length handlers =? 0)%nat then (w, Returned tt)
       else dispatch handlers event w.

End Dispatcher.

(** [createHookEvent(type, action, sessionKey, context = {})]; [now] is the
    value of [new Date()]. *)
Definition createHookEvent (now : Z) (type action sessionKey : string)
    (context : option (gmap string string)) : HookEvent :=
  {| type := type; action := action; sessionKey := sessionKey;
     timestamp := now; messages := [];
     context := default ∅ context |}.

(** Registering a list of (key, handler) pairs, first to last. *)
Definition registerAll (regs : list (string * HookHandler)) (s : Store)
    : Store :=
  foldl (λ s r, registerHook r.1 r.2 s) s regs.

(** The handlers that a list of registrations puts under [key], in the
    order of the calls. *)
Definition registeredUnder (key : string)
    (regs : list (string * HookHandler)) : list HookHandler :=
  (filter (λ r, r.1 = key) regs).*2.

(** The stores JavaScript can produce: every reference held by the map
    points to an allocated array, and no array is held under two keys. *)
Definition store_wf (s : Store) : Prop :=
  (∀ k a, registry s !! k = Some a → is_Some (arrays s !! a)) ∧
  (∀ k1 k2 a,
     registry s !! k1 = Some a → registry s !! k2 = Some a → k1 = k2).

(** Registry operations carried out while a dispatch is suspended. *)
Inductive RegistryOp :=
| OpRegister (eventKey : string) (handler : HookHandler)
| OpClear.

Definition applyOp (s : Store) (op : RegistryOp) : Store :=
  match op with
  | OpRegister eventKey handler => registerHook eventKey handler s
  | OpClear => clearHooks s
  end.

(** [run], followed by the registry operations [ops handler] that take
    place before the dispatch resumes. *)
Definition interleaved {Ext : Type}
    (run : HookHandler → HookEvent → Store → Ext →
           Store * Ext * Completion unit)
    (ops : HookHandler → list RegistryOp)
    : HookHandler → HookEvent → Store → Ext → Store * Ext * Completion unit :=
  λ handler event s e,
    let '(s', e', r) := run handler event s e in
    (foldl applyOp s' (ops handler), e', r).

End Hooks.

(* ===================================================================== *)
(** * config/types.messages.ts: queue types *)
(* ===================================================================== *)

Module Messages.

(** <<
    export type QueueMode =
      | "steer" | "followup" | "collect" | "steer-backlog"
      | "steer+backlog" | "queue" | "interrupt";
    >> *)
Inductive QueueMode :=
| steer
| followup
| collect
| steer_backlog
| steer_plus_backlog
| queue
| interrupt.

(** [export type QueueDropPolicy = "old" | "new" | "summarize";] *)
Inductive QueueDropPolicy :=
| old
| new
| summarize.

(** The string literal that each member of the union is. *)
Definition QueueMode_literal (m : QueueMode) : string :=
  match m with
  | steer => "steer"
  | followup => "followup"
  | collect => "collect"
  | steer_backlog => "steer-backlog"
  | steer_plus_backlog => "steer+backlog"
  | queue => "queue"
  | interrupt => "interrupt"
  end.

Definition QueueDropPolicy_literal (d : QueueDropPolicy) : string :=
  match d with
  | old => "old"
  | new => "new"
  | summarize => "summarize"
  end.

#[global] Instance QueueMode_eq_dec : EqDecision QueueMode.
Proof. solve_decision. Defined.

#[global] Instance QueueDropPolicy_eq_dec : EqDecision QueueDropPolicy.
Proof. solve_decision. Defined.

(** [export type QueueModeByProvider = { whatsapp?: QueueMode; ... }] *)
Record QueueModeByProvider := {
  whatsapp : option QueueMode;
  telegram : option QueueMode;
  discord : option QueueMode;
  googlechat : option QueueMode;
  slack : option QueueMode;
  signal : option QueueMode;
  imessage : option QueueMode;
  msteams : option QueueMode;
  webchat : option QueueMode
}.

(** [export type InboundDebounceByProvider = Record<string, number>;]
    The numbers of the queue configuration are counts and durations in
    milliseconds; they are taken in the natural numbers. *)
Abbreviation InboundDebounceByProvider := (gmap string nat) (only parsing).

(** <<
    export type QueueConfig = {
      mode?: QueueMode;
      byChannel?: QueueModeByProvider;
      debounceMs?: number;
      debounceMsByChannel?: InboundDebounceByProvider;
      cap?: number;
      drop?: QueueDropPolicy;
    };
    >> *)
Record QueueConfig := {
  mode : option QueueMode;
  byChannel : option QueueModeByProvider;
  debounceMs : option nat;
  debounceMsByChannel : option InboundDebounceByProvider;
  cap : option nat;
  drop : option QueueDropPolicy
}.

(** [byChannel[channel]] for a channel name. *)
Definition modeOfProvider (channel : string) (by_provider : QueueModeByProvider)
    : option QueueMode :=
  if decide (channel = "whatsapp") then whatsapp by_provider
  else if decide (channel = "telegram") then telegram by_provider
  else if decide (channel = "discord") then discord by_provider
  else if decide (channel = "googlechat") then googlechat by_provider
  else if decide (channel = "slack") then slack by_provider
  else if decide (channel = "signal") then signal by_provider
  else if decide (channel = "imessage") then imessage by_provider
  else if decide (channel = "msteams") then msteams by_provider
  else if decide (channel = "webchat") then webchat by_provider
  else None.

End Messages.

(* ===================================================================== *)
(** * The inbound queue controller *)
(* ===================================================================== *)

Module Queue.

(** Modelled from the spec: the inbound queue controller ([submit] and the
    session queue state) is not among the files covered here, which only
    declare its configuration ([Messages.QueueConfig]). Everything in this
    module follows sections 3 and 4.1 of the specification. Where the
    specification leaves a choice open, the choice made here is stated at
    the definition. *)
Record SessionState (Message : Type) := {
  sessionKey : string;
  mode : Messages.QueueMode;
  pending : list Message;
  debounceTimer : option nat;
  debounceMs : nat;
  cap : nat;
  dropPolicy : Messages.QueueDropPolicy;
  inFlight : bool
}.
Arguments sessionKey {Message} s.
Arguments mode {Message} s.
Arguments pending {Message} s.
Arguments debounceTimer {Message} s.
Arguments debounceMs {Message} s.
Arguments cap {Message} s.
Arguments dropPolicy {Message} s.
Arguments inFlight {Message} s.

(** Modelled from the spec: the [Decision] of a submission, one of
    [{flushed: Batch}], [{queued}] and [{dropped: reason}]. The reason
    names the policy that dropped and the messages it dropped. *)
Inductive Decision (Message : Type) :=
| flushed (batch : list Message)
| queued
| dropped (policy : Messages.QueueDropPolicy) (victims : list Message).
Arguments flushed {Message} batch.
Arguments queued {Message}.
Arguments dropped {Message} policy victims.

Section Controller.

Context {Message : Type}.

(** The external summarizer, [(messages) → summaryMessage]. *)
Variable summarizer : list Message → Message.

(** The built-in defaults that close the resolution chain. The built-in
    mode is [queue] (section 7); the other three are not given a value by
    the specification. *)
Variable defaultDebounceMs : nat.
Variable defaultCap : nat.
Variable defaultDrop : Messages.QueueDropPolicy.

(** Modelled from the spec: per-channel override, then global
    configuration, then built-in default. Only the mode and the debounce
    delay have per-channel overrides in [QueueConfig]. *)
Definition resolveMode (cfg : Messages.QueueConfig) (channel : string)
    : Messages.QueueMode :=
  match Messages.byChannel cfg ≫= Messages.modeOfProvider channel with
  | Some m => m
  | None => default Messages.queue (Messages.mode cfg)
  end.

Definition resolveDebounceMs (cfg : Messages.QueueConfig) (channel : string)
    : nat :=
  match Messages.debounceMsByChannel cfg ≫= (.!! channel) with
  | Some ms => ms
  | None => default defaultDebounceMs (Messages.debounceMs cfg)
  end.

Definition resolveCap (cfg : Messages.QueueConfig) : nat :=
  default defaultCap (Messages.cap cfg).

Definition resolveDrop (cfg : Messages.QueueConfig)
    : Messages.QueueDropPolicy :=
  default defaultDrop (Messages.drop cfg).

(** Modelled from the spec: step 1 of [submit]. The session state is
    created on the first event of a session key (nothing pending, no
    timer, nothing in flight); the four settings are resolved anew for
    every event. *)
Definition resolveSession (cfg : Messages.QueueConfig) (key channel : string)
    (sessions : gmap string (SessionState Message)) : SessionState Message :=
  let previous := sessions !! key in
  {| sessionKey := key;
     mode := resolveMode cfg channel;
     pending := from_option pending [] previous;
     debounceTimer := previous ≫= debounceTimer;
     debounceMs := resolveDebounceMs cfg channel;
     cap := resolveCap cfg;
     dropPolicy := resolveDrop cfg;
     inFlight := from_option inFlight false previous |}.

Definition with_pending (st : SessionState Message) (l : list Message)
    : SessionState Message :=
  {| sessionKey := sessionKey st; mode := mode st; pending := l;
     debounceTimer := debounceTimer st; debounceMs := debounceMs st;
     cap := cap st; dropPolicy := dropPolicy st; inFlight := inFlight st |}.

Definition with_timer (st : SessionState Message) (t : option nat)
    : SessionState Message :=
  {| sessionKey := sessionKey st; mode := mode st; pending := pending st;
     debounceTimer := t; debounceMs := debounceMs st;
     cap := cap st; dropPolicy := dropPolicy st; inFlight := inFlight st |}.

Definition with_inFlight (st : SessionState Message) (b : bool)
    : SessionState Message :=
  {| sessionKey := sessionKey st; mode := mode st; pending := pending st;
     debounceTimer := debounceTimer st; debounceMs := debounceMs st;
     cap := cap st; dropPolicy := dropPolicy st; inFlight := b |}.

(** Modelled from the spec: "evict oldest entries until at cap". The
    entries are removed one at a time from the front while there are more
    than [cap]; the result is the evicted entries and the survivors. *)
Fixpoint evictOldest (cap : nat) (entries : list Message)
    : list Message * list Message :=
  match entries with
  | [] => ([], [])
  | oldest :: rest =>
      if (cap <? length entries)%nat then
        let '(evicted, kept) := evictOldest cap rest in
        (oldest :: evicted, kept)
      else ([], entries)
  end.

(** Modelled from the spec: step 3 of [submit], "append to [pending]; if
    [pending.length > cap], apply [dropPolicy]":
    - [old]: evict the oldest entries until at cap and report them;
    - [new]: reject the incoming message, which is not appended;
    - [summarize]: the existing entries collapse into one placeholder made
      by the summarizer, followed by the new message.
    A [cap] of 0 is not treated apart: the same rule applies. *)
Definition buffer (st : SessionState Message) (message : Message)
    : SessionState Message * Decision Message :=
  let appended := pending st ++ [message] in
  if (cap st <? length appended)%nat then
    match dropPolicy st with
    | Messages.old =>
        let '(evicted, kept) := evictOldest (cap st) appended in
        (with_pending st kept, dropped Messages.old evicted)
    | Messages.new => (st, dropped Messages.new [message])
    | Messages.summarize =>
        (with_pending st [summarizer (pending st); message], queued)
    end
  else (with_pending st appended, queued).

(** Modelled from the spec: step 4, the debounce timer is set to fire
    [debounceMs] from [now]; a timer that was set is replaced. *)
Definition rearm (now : nat) (st : SessionState Message)
    : SessionState Message :=
  with_timer st (Some (now + debounceMs st)).

(** Steps 3 and 4 for a message that is buffered. *)
Definition enqueue (now : nat) (st : SessionState Message)
    (message : Message) (sessions : gmap string (SessionState Message))
    : gmap string (SessionState Message) * Decision Message :=
  let '(st', decision) := buffer st message in
  (<[sessionKey st := rearm now st']> sessions, decision).

(** Modelled from the spec: [submit(sessionKey, message, channel)] at time
    [now] under the configuration [cfg].
    - [collect], [followup], [queue]: always buffer;
    - [steer] and the two backlog modes: while a batch is in flight the
      message is handed to the external steer callback and released at
      once, reported as a batch of its own; otherwise buffer;
    - [interrupt]: the message is flushed at once as its own batch, which
      is then the batch in flight. *)
Definition submit (cfg : Messages.QueueConfig) (now : nat)
    (key : string) (message : Message) (channel : string)
    (sessions : gmap string (SessionState Message))
    : gmap string (SessionState Message) * Decision Message :=
  let st := resolveSession cfg key channel sessions in
  match mode st with
  | Messages.collect | Messages.followup | Messages.queue =>
      enqueue now st message sessions
  | Messages.steer | Messages.steer_backlog | Messages.steer_plus_backlog =>
      if inFlight st then (<[key := st]> sessions, flushed [message])
      else enqueue now st message sessions
  | Messages.interrupt =>
      (<[key := with_inFlight st true]> sessions, flushed [message])
  end.

(** Whether a submission in mode [m] goes through step 3. *)
Definition buffers (m : Messages.QueueMode) (in_flight : bool) : bool :=
  match m with
  | Messages.collect | Messages.followup | Messages.queue => true
  | Messages.steer | Messages.steer_backlog | Messages.steer_plus_backlog =>
      negb in_flight
  | Messages.interrupt => false
  end.

(** Modelled from the spec: step 5, the timer fires: all of [pending]
    leaves as one batch, which is in flight from then on. *)
Definition flush (key : string)
    (sessions : gmap string (SessionState Message))
    : gmap string (SessionState Message) * list Message :=
  match sessions !! key with
  | Some st =>
      (<[key := with_inFlight (with_timer (with_pending st []) None) true]>
         sessions, pending st)
  | None => (sessions, [])
  end.

(** Submitting a list of messages one after the other, with no flush in
    between; the [i]-th message arrives at time [now + i]. *)
Fixpoint submitAll (cfg : Messages.QueueConfig) (now : nat)
    (key : string) (msgs : list Message) (channel : string)
    (sessions : gmap string (SessionState Message))
    : gmap string (SessionState Message) :=
  match msgs with
  | [] => sessions
  | message :: rest =>
      submitAll cfg (S now) key rest channel
        (submit cfg now key message channel sessions).1
  end.

(** The messages waiting in a session; none when the session does not
    exist yet. *)
Definition pendingOf (key : string)
    (sessions : gmap string (SessionState Message)) : list Message :=
  from_option pending [] (sessions !! key).

(** Whether a batch of the session is in flight; none is when the session
    does not exist yet. *)
Definition inFlightOf (key : string)
    (sessions : gmap string (SessionState Message)) : bool :=
  from_option inFlight false (sessions !! key).

(** The last [n] elements of a list, in their order. *)
Definition lastN (n : nat) (l : list Message) : list Message :=
  drop (length l - n) l.

End Controller.

End Queue.

(* ===================================================================== *)
(** * Sample registries, handlers and configurations *)
(* ===================================================================== *)

Module Samples.
Import Hooks.

(** The outside world of the samples: the lines written so far. The
    logger of the samples writes a line and returns. *)
Definition write_line (line : string) (journal : list string)
    : list string * Completion unit :=
  (journal ++ [line], Returned tt).

(** Handler 2 notes its call and throws [new Error("boom")]; handler 3
    clears the registry and registers handler 4 for all commands; every
    other handler notes its call and returns. *)
Definition behaviour (handler : HookHandler) (event : HookEvent)
    (s : Store) (journal : list string)
    : Store * list string * Completion unit :=
  if decide (handler = 2%positive) then
    (s, journal ++ ["specific called"], Threw (ThrownError "boom"))
  else if decide (handler = 3%positive) then
    (registerHook "command" 4%positive (clearHooks s),
     journal ++ ["registry replaced"], Returned tt)
  else (s, journal ++ ["general called"], Returned tt).

(** What [String(Object.create(null))] throws. *)
Definition typeError : Thrown :=
  ThrownError "Cannot convert object to primitive value".

(** The value of [Object.create(null)] when it is thrown: it is not an
    [Error], and it has no [toString] for [String(err)] to call. *)
Definition bareObject : Thrown := ThrownUnrenderable typeError.

(** What the template literal of the log line throws for a symbol. *)
Definition symbolTypeError : Thrown :=
  ThrownError "Cannot convert a Symbol value to a string".

(** An [Error] whose [message] has been set to [Symbol("m")]. *)
Definition symbolError : Thrown := ThrownUnrenderable symbolTypeError.

(** Handler 2 notes its call and throws [Object.create(null)]; handler 3
    notes its call and throws an error whose message is a symbol; every
    other handler notes its call and returns. *)
Definition opaque (handler : HookHandler) (event : HookEvent)
    (s : Store) (journal : list string)
    : Store * list string * Completion unit :=
  if decide (handler = 2%positive) then
    (s, journal ++ ["H2 called"], Threw bareObject)
  else if decide (handler = 3%positive) then
    (s, journal ++ ["H3 called"], Threw symbolError)
  else if decide (handler = 1%positive) then
    (s, journal ++ ["H1 called"], Returned tt)
  else (s, journal ++ ["other called"], Returned tt).

(** The event of the command [/new]. *)
Definition commandNew : HookEvent :=
  createHookEvent 0 "command" "new" "agent:main:main" None.

(** An event whose type holds a colon. *)
Definition colonTyped : HookEvent :=
  createHookEvent 0 "command:new" "anything" "agent:main:main" None.

(** Handler 1 registered for all commands, then handler 2 for [/new]. *)
Definition bothRegistered : Store :=
  registerHook "command:new" 2%positive
    (registerHook "command" 1%positive initial).

Definition start (s : Store) : World (list string) :=
  {| store := s; env := []; invoked := [] |}.

(** A queue configuration: mode [queue], at most three messages, the
    given drop policy; no per-channel overrides. *)
Definition queueOfThree (policy : Messages.QueueDropPolicy)
    : Messages.QueueConfig :=
  {| Messages.mode := Some Messages.queue;
     Messages.byChannel := None;
     Messages.debounceMs := Some 500;
     Messages.debounceMsByChannel := None;
     Messages.cap := Some 3;
     Messages.drop := Some policy |}.

(** A queue configuration that collects by default, steers on Telegram
    and interrupts on Signal, and summarizes what it drops. *)
Definition perChannel : Messages.QueueConfig :=
  {| Messages.mode := Some Messages.collect;
     Messages.byChannel :=
       Some {| Messages.whatsapp := None;
               Messages.telegram := Some Messages.steer_plus_backlog;
               Messages.discord := None;
               Messages.googlechat := None;
               Messages.slack := None;
               Messages.signal := Some Messages.interrupt;
               Messages.imessage := None;
               Messages.msteams := None;
               Messages.webchat := None |};
     Messages.debounceMs := None;
     Messages.debounceMsByChannel := None;
     Messages.cap := Some 10;
     Messages.drop := Some Messages.summarize |}.

(** A summarizer for messages that are strings. *)
Definition joinAll (msgs : list string) : string :=
  foldr String.append EmptyString msgs.

(** Submission of string messages with that summarizer and the built-in
    defaults 1000 ms, 20 messages, [old]. *)
Definition submitText :=
  Queue.submit joinAll 1000 20 Messages.old.

Definition submitAllText :=
  Queue.submitAll joinAll 1000 20 Messages.old.

End Samples.

(* ===================================================================== *)
(** * Observing the registry and its log *)
(* ===================================================================== *)

Module HookTrace.
Import Hooks.

(** What a sequence of registry operations has registered since the last
    [clearHooks], in call order. *)
Definition sinceLastClear (ops : list RegistryOp)
    : list (string * HookHandler) :=
  foldl (λ regs op,
           match op with
           | OpRegister eventKey handler => regs ++ [(eventKey, handler)]
           | OpClear => []
           end) [] ops.

(** An outside world that keeps, beside its own state, the lines given to
    [logger.error]. *)
Definition journal_logger {Ext : Type} (line : string)
    (e : Ext * list string) : Ext * list string * Completion unit :=
  ((e.1, e.2 ++ [line]), Returned tt).

(** Handlers that do not write to that journal themselves. *)
Definition journal_run {Ext : Type}
    (run : HookHandler → HookEvent → Store → Ext →
           Store * Ext * Completion unit)
    : HookHandler → HookEvent → Store → Ext * list string →
      Store * (Ext * list string) * Completion unit :=
  λ handler event s e,
    let '(s', e', r) := run handler event s e.1 in (s', (e', e.2), r).

(** How a handler ends when its outcome does not depend on the state:
    [None] for a normal return, [Some err] for a throw. *)
Definition outcome (fails : HookHandler → option Thrown)
    (handler : HookHandler) : Completion unit :=
  match fails handler with
  | Some err => Threw err
  | None => Returned tt
  end.

(** The line expected in the log for a failure under [key] with the
    text [msg]: [[hooks] Handler error for "key": msg]. *)
Definition expectedLine (key msg : string) : string :=
  "[hooks] Handler error for "
    +:+ String (Ascii.ascii_of_nat 34) EmptyString +:+ key
    +:+ String (Ascii.ascii_of_nat 34) EmptyString +:+ ": " +:+ msg.

(** The log lines expected of a dispatch over [entries]: one for each
    entry whose handler throws, with the message of the error or the
    rendering of the value. *)
Definition failureLines (fails : HookHandler → option Thrown)
    (entries : list (string * HookHandler)) : list string :=
  omap (λ entry,
          match fails entry.2 with
          | Some (ThrownError message) => Some (expectedLine entry.1 message)
          | Some (ThrownValue rendering) =>
              Some (expectedLine entry.1 rendering)
          | _ => None
          end) entries.

(** What a dispatch over [entries] is to do to the registry and to the
    outside world, and how it is to end: each handler is called in turn,
    on what the one before it left; when it throws, the line of the
    failure is given to the logger, and the next handler is called all the
    same. A failure whose line cannot be computed, or whose logging
    throws, ends the dispatch with what was thrown there. *)
Fixpoint sequence {Ext : Type}
    (logger_error : string → Ext → Ext * Completion unit)
    (run : HookHandler → HookEvent → Store → Ext →
           Store * Ext * Completion unit)
    (event : HookEvent) (entries : list (string * HookHandler))
    (s : Store) (e : Ext) : Store * Ext * Completion unit :=
  match entries with
  | [] => (s, e, Returned tt)
  | entry :: rest =>
      let '(s1, e1, r) := run entry.2 event s e in
      let logged (msg : string) :=
        let '(e2, r2) := logger_error (expectedLine entry.1 msg) e1 in
        match r2 with
        | Returned _ => sequence logger_error run event rest s1 e2
        | Threw raised => (s1, e2, Threw raised)
        end in
      match r with
      | Returned _ => sequence logger_error run event rest s1 e1
      | Threw (ThrownError message) => logged message
      | Threw (ThrownValue rendering) => logged rendering
      | Threw (ThrownUnrenderable raised) => (s1, e1, Threw raised)
      end
  end.

(** Every failure can be logged: no handler throws a value whose line
    cannot be computed, and the logger returns. *)
Definition loggable {Ext : Type}
    (logger_error : string → Ext → Ext * Completion unit)
    (run : HookHandler → HookEvent → Store → Ext →
           Store * Ext * Completion unit)
    (event : HookEvent) : Prop :=
  (∀ h s e raised, (run h event s e).2 ≠ Threw (ThrownUnrenderable raised))
  ∧ (∀ line e, (logger_error line e).2 = Returned tt).

(** The effect of a handler on the outside world and the way it ends do
    not depend on the registry. *)
Definition registryBlind {Ext : Type}
    (run : HookHandler → HookEvent → Store → Ext →
           Store * Ext * Completion unit) : Prop :=
  ∀ h event s1 s2 e,
    (run h event s1 e).1.2 = (run h event s2 e).1.2
    ∧ (run h event s1 e).2 = (run h event s2 e).2.

(** Whether the character [c] occurs in [s]. *)
Fixpoint mentions (c : Ascii.ascii) (s : string) : bool :=
  match s with
  | EmptyString => false
  | String c' rest => if decide (c' = c) then true else mentions c rest
  end.

(** The colon of the specific key. *)
Definition colon : Ascii.ascii := Ascii.ascii_of_nat 58.

(** No array held by the registry is empty. *)
Definition arrays_inhabited (s : Store) : Prop :=
  ∀ key hs, get key s = Some hs → hs ≠ [].

End HookTrace.

(* ===================================================================== *)
(** * JavaScript strings *)
(* ===================================================================== *)

Module JS.

(** A string is the sequence of its UTF-16 code units; [length],
    [startsWith], [endsWith], [slice], [trim] and [===] all work on code
    units. *)
Abbreviation jsstring := (list N) (only parsing).

(** The code units of a literal made of ASCII characters. *)
Definition u (literal : string) : list N :=
  Ascii.N_of_ascii <$> String.list_ascii_of_string literal.

(** The code units that [trim] removes: WhiteSpace and LineTerminator of
    ECMAScript (TAB, LF, VT, FF, CR, SP, NBSP, U+1680, U+2000 to U+200A,
    U+2028, U+2029, U+202F, U+205F, U+3000, U+FEFF). *)
Definition whiteSpaceUnits : list N :=
  [9; 10; 11; 12; 13; 32; 160; 5760;
   8192; 8193; 8194; 8195; 8196; 8197; 8198; 8199; 8200; 8201; 8202;
   8232; 8233; 8239; 8287; 12288; 65279]%N.

Definition isWhiteSpace (c : N) : bool := bool_decide (c ∈ whiteSpaceUnits).

(** [s.trimStart()] *)
Fixpoint trimStart (s : list N) : list N :=
  match s with
  | [] => []
  | c :: rest => if isWhiteSpace c then trimStart rest else s
  end.

(** [s.trimEnd()] *)
Definition trimEnd (s : list N) : list N :=
  reverse (trimStart (reverse s)).

(** [s.trim()] *)
Definition trim (s : list N) : list N := trimEnd (trimStart s).

(** [s.startsWith(search)] *)
Fixpoint startsWith (s search : list N) {struct search} : bool :=
  match search, s with
  | [], _ => true
  | _ :: _, [] => false
  | c :: search', d :: s' => bool_decide (c = d) && startsWith s' search'
  end.

(** [s.endsWith(search)] *)
Definition endsWith (s search : list N) : bool :=
  startsWith (reverse s) (reverse search).

(** [s.slice(start)] for a [start] that is not negative. *)
Definition sliceFrom (start : nat) (s : list N) : list N := drop start s.

(** [s.slice(0, end)] for an [end] that is not negative. *)
Definition sliceTo (stop : nat) (s : list N) : list N := take stop s.

(** [s.slice(0, -1)] *)
Definition dropLast (s : list N) : list N := take (length s - 1) s.

(** [s.replaceAll(String.fromCharCode(c), "")] for one code unit. *)
Definition removeAll (c : N) (s : list N) : list N :=
  filter (λ d, d ≠ c) s.

(** What [toLowerCase] does to a code unit below 128. *)
Definition asciiLower (c : N) : N :=
  if ((65 <=? c) && (c <=? 90))%N then (c + 32)%N else c.

(** Strings all of whose code units are below 128. *)
Definition isAscii (s : list N) : Prop := Forall (λ c, (c < 128)%N) s.

(** The property names that an object inherits from [Object.prototype]:
    reading one of them from an object that has no property of that name
    of its own gives a function (for [__proto__], the prototype) and not
    [undefined]. *)
Definition inheritedNames : list (list N) :=
  u <$> ["constructor"; "hasOwnProperty"; "isPrototypeOf";
         "propertyIsEnumerable"; "toLocaleString"; "toString"; "valueOf";
         "__defineGetter__"; "__defineSetter__"; "__lookupGetter__";
         "__lookupSetter__"; "__proto__"].

End JS.

(* ===================================================================== *)
(** * apps/ui/src/ui/navigation.ts *)
(* ===================================================================== *)

Module Navigation.
Import JS.

(** [export type Tab = "chat" | "plugins" | "skills" | "config" | "logs";] *)
Inductive Tab :=
| chat
| plugins
| skills
| config
| logs.

#[global] Instance Tab_eq_dec : EqDecision Tab.
Proof. solve_decision. Defined.

(** The string that a tab is. *)
Definition Tab_literal (tab : Tab) : list N :=
  match tab with
  | chat => u "chat"
  | plugins => u "plugins"
  | skills => u "skills"
  | config => u "config"
  | logs => u "logs"
  end.

(** [const TAB_PATHS: Record<Tab, string>] *)
Definition TAB_PATHS (tab : Tab) : list N :=
  match tab with
  | chat => u "/chat"
  | plugins => u "/plugins"
  | skills => u "/skills"
  | config => u "/config"
  | logs => u "/logs"
  end.

(** [Object.entries(TAB_PATHS)], in the order the keys were written. *)
Definition TAB_PATHS_entries : list (Tab * list N) :=
  (λ tab, (tab, TAB_PATHS tab)) <$> [chat; plugins; skills; config; logs].

(** <<
    const PATH_TO_TAB = new Map(
      Object.entries(TAB_PATHS).map(([tab, p]) => [p, tab as Tab]));
    >>
    The [Map] constructor sets the entries one after the other. *)
Definition PATH_TO_TAB : gmap (list N) Tab :=
  foldl (λ m entry, <[entry.1 := entry.2]> m) ∅
        ((λ '(tab, p), (p, tab)) <$> TAB_PATHS_entries).

(** [export function normalizeBasePath(basePath: string): string] *)
Definition normalizeBasePath (basePath : list N) : list N :=
  match basePath with
  | [] => []
  | _ =>
      let base := trim basePath in
      let base := if negb (startsWith base (u "/")) then u "/" ++ base
                  else base in
      if bool_decide (base = u "/") then []
      else
        let base := if endsWith base (u "/") then dropLast base else base in
        base
  end.

(** [export function normalizePath(p: string): string] *)
Definition normalizePath (p : list N) : list N :=
  match p with
  | [] => u "/"
  | _ =>
      let normalized := trim p in
      let normalized :=
        if negb (startsWith normalized (u "/")) then u "/" ++ normalized
        else normalized in
      let normalized :=
        if (1 <? length normalized)%nat && endsWith normalized (u "/")
        then dropLast normalized else normalized in
      normalized
  end.

(** [export function pathForTab(tab: Tab, basePath = ""): string];
    [None] is an argument left out. *)
Definition pathForTab (tab : Tab) (basePath : option (list N)) : list N :=
  let basePath := default [] basePath in
  let base := normalizeBasePath basePath in
  let p := TAB_PATHS tab in
  match base with
  | [] => p
  | _ => base ++ p
  end.

Section TabFromPath.

(** [String.prototype.toLowerCase]. *)
Variable toLowerCase : list N → list N.

(** [export function tabFromPath(pathname: string, basePath = ""): Tab | null] *)
Definition tabFromPath (pathname : list N) (basePath : option (list N))
    : option Tab :=
  let basePath := default [] basePath in
  let base := normalizeBasePath basePath in
  let p := match pathname with [] => u "/" | _ => pathname end in
  let p :=
    match base with
    | [] => p
    | _ =>
        if bool_decide (p = base) then u "/"
        else if startsWith p (base ++ u "/") then sliceFrom (length base) p
        else p
    end in
  let normalized := toLowerCase (normalizePath p) in
  let normalized :=
    if endsWith normalized (u "/index.html") then u "/" else normalized in
  if bool_decide (normalized = u "/") then Some chat
  else PATH_TO_TAB !! normalized.

End TabFromPath.

(** [export function titleForTab(tab: Tab): string]; the [default]
    branch of the [switch] is for values outside [Tab]. *)
Definition titleForTab (tab : Tab) : list N :=
  match tab with
  | chat => u "Chat"
  | plugins => u "Plugins"
  | skills => u "Skills"
  | config => u "Config"
  | logs => u "Logs"
  end.

(** [export function subtitleForTab(tab: Tab): string] *)
Definition subtitleForTab (tab : Tab) : list N :=
  match tab with
  | chat => u "Talk to your agent."
  | plugins => u "Manage plugins and integrations."
  | skills => u "View available skills."
  | config => u "Agent settings and configuration."
  | logs => u "View agent logs."
  end.

End Navigation.

(* ===================================================================== *)
(** * api/plugin-validation.ts *)
(* ===================================================================== *)

Module PluginValidation.
Import JS.

(** An element of [errors] or [warnings]. *)
Record Issue := {
  field : list N;
  message : list N
}.

#[global] Instance Issue_eq_dec : EqDecision Issue.
Proof. solve_decision. Defined.

(** [export interface PluginValidationResult] *)
Record PluginValidationResult := {
  valid : bool;
  errors : list Issue;
  warnings : list Issue
}.

(** [export interface PluginParamInfo]; the field [default] is
    [defaultValue] here. *)
Record PluginParamInfo := {
  key : list N;
  required : bool;
  sensitive : bool;
  type : list N;
  description : list N;
  defaultValue : option (list N)
}.

(** An entry of [KEY_PREFIX_HINTS]. *)
Record Hint := {
  prefix : list N;
  label : list N
}.

(** [const KEY_PREFIX_HINTS: Readonly<Record<string, {prefix, label}>>] *)
Definition KEY_PREFIX_HINTS : gmap (list N) Hint :=
  list_to_map
    [(u "ANTHROPIC_API_KEY", {| prefix := u "sk-ant-"; label := u "Anthropic" |});
     (u "OPENAI_API_KEY", {| prefix := u "sk-"; label := u "OpenAI" |});
     (u "GROQ_API_KEY", {| prefix := u "gsk_"; label := u "Groq" |});
     (u "XAI_API_KEY", {| prefix := u "xai-"; label := u "xAI" |});
     (u "OPENROUTER_API_KEY",
      {| prefix := u "sk-or-"; label := u "OpenRouter" |})].

(** A number inside a template literal: its decimal digits. *)
Definition decimal (n : nat) : list N := u (pretty n).

(** The character U+0022 and the dash U+2014 of the hint message. *)
Definition quote : list N := [34%N].
Definition emDash : list N := [8212%N].

(** <<  `${key} is not set (will use default: ${def})`  >> *)
Definition defaultMessage (key def : list N) : list N :=
  key ++ u " is not set (will use default: " ++ def ++ u ")".

(** <<  `${key} is required but not set`  >> *)
Definition requiredMessage (key : list N) : list N :=
  key ++ u " is required but not set".

(** <<
    `${hint.label} key should start with "${hint.prefix}" — the current
    value may be invalid`
    >> *)
Definition prefixMessage (hint : Hint) : list N :=
  label hint ++ u " key should start with " ++ quote ++ prefix hint ++ quote
    ++ u " " ++ emDash ++ u " the current value may be invalid".

(** <<  `${key} looks too short (${n} chars)`  >> *)
Definition shortMessage (key : list N) (n : nat) : list N :=
  key ++ u " looks too short (" ++ decimal n ++ u " chars)".

Section Validate.

(** [process.env], by the variables it holds. *)
Variable env : gmap (list N) (list N).

(** [providedConfig], by its own properties; [None] when the argument is
    left out. *)
Variable providedConfig : option (gmap (list N) (list N)).

(** [providedConfig?.[key] ?? process.env[key]], for a [key] that is not
    among [inheritedNames] (for these the lookup in the object finds what
    [Object.prototype] holds, which is not a string). *)
Definition valueFor (key : list N) : option (list N) :=
  match providedConfig ≫= (.!! key) with
  | Some value => Some value
  | None => env !! key
  end.

(** [!value || !value.trim()] *)
Definition notSet (value : option (list N)) : bool :=
  match value with
  | None => true
  | Some [] => true
  | Some v => match trim v with [] => true | _ => false end
  end.

(** The warning about the prefix of a known key, pushed when
    [hint && !value.startsWith(hint.prefix)], for a [key] that is not
    among [inheritedNames]. *)
Definition prefixWarning (key value : list N) : list Issue :=
  match KEY_PREFIX_HINTS !! key with
  | Some hint =>
      if negb (startsWith value (prefix hint))
      then [{| field := key; message := prefixMessage hint |}]
      else []
  | None => []
  end.

(** The warning about a value of fewer than ten code units once
    trimmed. *)
Definition shortWarning (key value : list N) : list Issue :=
  if (length (trim value) <? 10)%nat
  then [{| field := key; message := shortMessage key (length (trim value)) |}]
  else [].

(** One turn of [for (const param of paramDefs)]; [acc] holds [errors]
    and [warnings]. *)
Definition checkParam (acc : list Issue * list Issue)
    (param : PluginParamInfo) : list Issue * list Issue :=
  let '(errors, warnings) := acc in
  if negb (required param) then acc
  else
    let value := valueFor (key param) in
    if notSet value then
      match defaultValue param with
      | Some (c :: def) =>
          (errors,
           warnings ++ [{| field := key param;
                           message := defaultMessage (key param) (c :: def) |}])
      | _ =>
          (errors ++ [{| field := key param;
                         message := requiredMessage (key param) |}],
           warnings)
      end
    else
      let v := from_option id [] value in
      let warnings := warnings ++ prefixWarning (key param) v in
      let warnings :=
        if sensitive param then warnings ++ shortWarning (key param) v
        else warnings in
      (errors, warnings).

(** The branch [else if (envKey)]. *)
Definition checkEnvKey (envKey : list N) : list Issue * list Issue :=
  let currentValue := valueFor envKey in
  if notSet currentValue then
    ([{| field := envKey; message := requiredMessage envKey |}], [])
  else
    let v := from_option id [] currentValue in
    ([], prefixWarning envKey v ++ shortWarning envKey v).

(** [export function validatePluginConfig(pluginId, category, envKey,
    configKeys, providedConfig?, paramDefs?)] *)
Definition validatePluginConfig (pluginId category : list N)
    (envKey : option (list N)) (configKeys : list (list N))
    (paramDefs : option (list PluginParamInfo)) : PluginValidationResult :=
  let '(errors, warnings) :=
    match paramDefs with
    | Some (first :: more) => foldl checkParam ([], []) (first :: more)
    | _ =>
        match envKey with
        | Some (c :: k) => checkEnvKey (c :: k)
        | _ => ([], [])
        end
    end in
  {| valid := (length errors =? 0)%nat;
     errors := errors;
     warnings := warnings |}.

(** The parameters that make the configuration invalid: required, not
    set, and without a default to fall back on. *)
Definition blocking (param : PluginParamInfo) : bool :=
  required param && notSet (valueFor (key param))
  && match defaultValue param with Some (_ :: _) => false | _ => true end.

End Validate.

(** The error reported for a parameter that is required but not set. *)
Definition requiredIssue (param : PluginParamInfo) : Issue :=
  {| field := key param; message := requiredMessage (key param) |}.

(** Strings made of white space only, the empty string among them. *)
Definition blank (value : list N) : bool := forallb isWhiteSpace value.

(** Whether a parameter is left without a value: the provided
    configuration decides when it has the key, the environment
    otherwise, and a blank value counts as none. *)
Definition unset (env : gmap (list N) (list N))
    (providedConfig : option (gmap (list N) (list N))) (key : list N)
    : bool :=
  match providedConfig with
  | Some provided =>
      match provided !! key with
      | Some value => blank value
      | None =>
          match env !! key with
          | Some value => blank value
          | None => true
          end
      end
  | None =>
      match env !! key with
      | Some value => blank value
      | None => true
      end
  end.

(** The parameters that a configuration cannot do without: required,
    left without a value, and with no default, or an empty one. *)
Definition missing (env : gmap (list N) (list N))
    (providedConfig : option (gmap (list N) (list N)))
    (param : PluginParamInfo) : bool :=
  match required param, defaultValue param with
  | true, None | true, Some [] => unset env providedConfig (key param)
  | _, _ => false
  end.

End PluginValidation.

(* ===================================================================== *)
(** * terminal/links.ts *)
(* ===================================================================== *)

Module Links.
Import JS.

(** [const DOCS_ROOT = "https://docs.milady.ai";] *)
Definition DOCS_ROOT : list N := u "https://docs.milady.ai".

(** The code units U+001B (escape) and U+0007 (bell). *)
Definition ESC : N := 27%N.
Definition BEL : N := 7%N.

(** [opts?: { fallback?: string; force?: boolean }] *)
Record LinkOptions := {
  fallback : option (list N);
  force : option bool
}.

Section Terminal.

(** [Boolean(process.stdout.isTTY)] *)
Variable isTTY : bool.

(** [opts?.force ?? Boolean(process.stdout.isTTY)] *)
Definition allowed (opts : option LinkOptions) : bool :=
  match opts ≫= force with
  | Some f => f
  | None => isTTY
  end.

(** [export function formatTerminalLink(label, url, opts?)] *)
Definition formatTerminalLink (label url : list N)
    (opts : option LinkOptions) : list N :=
  let safeLabel := removeAll ESC label in
  let safeUrl := removeAll ESC url in
  let allow := allowed opts in
  if negb allow then
    match opts ≫= fallback with
    | Some text => text
    | None => safeLabel ++ u " (" ++ safeUrl ++ u ")"
    end
  else
    [ESC] ++ u "]8;;" ++ safeUrl ++ [BEL] ++ safeLabel
      ++ [ESC] ++ u "]8;;" ++ [BEL].

(** [export function formatDocsLink(path, label?, opts?)] *)
Definition formatDocsLink (path : list N) (label : option (list N))
    (opts : option LinkOptions) : list N :=
  let trimmed := trim path in
  let url :=
    if startsWith trimmed (u "http") then trimmed
    else DOCS_ROOT ++ (if startsWith trimmed (u "/") then trimmed
                       else u "/" ++ trimmed) in
  formatTerminalLink (from_option id url label) url
    (Some {| fallback := Some (from_option id url (opts ≫= fallback));
             force := opts ≫= force |}).

End Terminal.

(** How often the escape code unit occurs in a string. *)
Definition escapes (s : list N) : nat := length (filter (λ c, c = ESC) s).

End Links.

(* ===================================================================== *)
(** * version.ts *)
(* ===================================================================== *)

Module Version.
Import JS.

(** [a || b] on values that are a string, [null] or [undefined] (and
    [false], which counts as absent): the left one when it is a string
    that is not empty. *)
Definition orElse (a b : option (list N)) : option (list N) :=
  match a with
  | Some (c :: rest) => Some (c :: rest)
  | _ => b
  end.

Section Sources.

(** [__MILAIDY_VERSION__], [undefined] when the build defines none. *)
Variable buildDefine : option (list N).

(** [process.env.MILAIDY_BUNDLED_VERSION] *)
Variable bundledVersion : option (list N).

(** What [require(path)] finds: [None] when it throws, otherwise the
    [version] field of the file, if it has one. *)
Variable requireVersion : list N → option (option (list N)).

(** [function readVersionFromPackageJson(): string | null] *)
Definition readVersionFromPackageJson : option (list N) :=
  match requireVersion (u "../package.json") with
  | Some version => version
  | None => None
  end.

(** The loop of [readVersionFromBuildInfo] over its candidates. *)
Fixpoint firstVersion (candidates : list (list N)) : option (list N) :=
  match candidates with
  | [] => None
  | candidate :: rest =>
      match requireVersion candidate with
      | Some (Some (c :: version)) => Some (c :: version)
      | _ => firstVersion rest
      end
  end.

(** [function readVersionFromBuildInfo(): string | null] *)
Definition readVersionFromBuildInfo : option (list N) :=
  firstVersion [u "../build-info.json"; u "./build-info.json"].

(** <<
    export const VERSION =
      (typeof __MILAIDY_VERSION__ === "string" && __MILAIDY_VERSION__) ||
      process.env.MILAIDY_BUNDLED_VERSION ||
      readVersionFromPackageJson() ||
      readVersionFromBuildInfo() ||
      "0.0.0";
    >> *)
Definition VERSION : list N :=
  from_option id (u "0.0.0")
    (orElse buildDefine
       (orElse bundledVersion
          (orElse readVersionFromPackageJson
             (orElse readVersionFromBuildInfo (Some (u "0.0.0")))))).

End Sources.

End Version.

(* ===================================================================== *)
(** * The workspace context provider *)
(* ===================================================================== *)

Module Workspace.
Import JS.

(** [const DEFAULT_MAX_CHARS = 20_000;] *)
Definition DEFAULT_MAX_CHARS : nat := 20000.

(** [const MAX_TOTAL_WORKSPACE_CHARS = 100_000;] *)
Definition MAX_TOTAL_WORKSPACE_CHARS : nat := 100000.

(** A line feed. *)
Definition LF : list N := [10%N].

(** Modelled from the spec: [WorkspaceBootstrapFile] is declared in
    providers/workspace.ts, which is not among the files covered here;
    these are the fields that [buildContext] reads. *)
Record WorkspaceBootstrapFile := {
  name : list N;
  content : option (list N);
  missing : bool
}.

Section Context.

(** [Number.prototype.toLocaleString], which depends on the locale. *)
Variable toLocaleString : nat → list N.

(** The notice put after a truncated text. *)
Definition notice (max : nat) : list N :=
  LF ++ LF ++ u "[... truncated at " ++ toLocaleString max ++ u " chars]".

(** [function truncate(content: string, max: number): string], for a
    [max] that is a natural number. *)
Definition truncate (content : list N) (max : nat) : list N :=
  if (length content <=? max)%nat then content
  else sliceTo max content ++ notice max.

(** [f.missing || !f.content?.trim()] *)
Definition skipped (f : WorkspaceBootstrapFile) : bool :=
  missing f ||
  match content f with
  | None => true
  | Some c => match trim c with [] => true | _ => false end
  end.

(** The section of a file that is not skipped. *)
Definition sectionOf (f : WorkspaceBootstrapFile) (maxChars : nat)
    : list N :=
  let trimmed := trim (from_option id [] (content f)) in
  let text := truncate trimmed maxChars in
  let tag := if (length trimmed <? length text)%nat
             then u " [TRUNCATED]" else [] in
  u "### " ++ name f ++ tag ++ LF ++ LF ++ text.

(** The loop of [buildContext]: [sections] and [totalChars] are its two
    variables; the [break] ends the loop with the sections so far. *)
Fixpoint collect (files : list WorkspaceBootstrapFile) (maxChars : nat)
    (sections : list (list N)) (totalChars : nat) : list (list N) :=
  match files with
  | [] => sections
  | f :: rest =>
      if skipped f then collect rest maxChars sections totalChars
      else
        let section := sectionOf f maxChars in
        if (MAX_TOTAL_WORKSPACE_CHARS <? totalChars + length section)%nat
           && (0 <? length sections)%nat
        then sections
        else collect rest maxChars (sections ++ [section])
               (totalChars + length section)
  end.

(** [sections.join(separator)] *)
Fixpoint join (separator : list N) (sections : list (list N)) : list N :=
  match sections with
  | [] => []
  | [section] => section
  | section :: rest => section ++ separator ++ join separator rest
  end.

(** [function buildContext(files, maxChars): string] *)
Definition buildContext (files : list WorkspaceBootstrapFile)
    (maxChars : nat) : list N :=
  let sections := collect files maxChars [] 0 in
  match sections with
  | [] => []
  | _ =>
      u "## Project Context (Workspace)" ++ LF ++ LF
        ++ join (LF ++ LF ++ u "---" ++ LF ++ LF) sections
  end.

End Context.

(** The total length of some sections. *)
Definition totalLength (sections : list (list N)) : nat :=
  foldr (λ section n, length section + n) 0 sections.

End Workspace.

(* ===================================================================== *)
(** * The configuration loader: variables for the environment *)
(* ===================================================================== *)

Module ConfigEnv.
Import JS.

(** What the test [!process.env[key]] finds: a variable that is set and
    not empty, or, for a variable that is not set, what the object
    inherits from [Object.prototype] under that name. *)
Definition truthy (env : gmap (list N) (list N)) (key : list N) : bool :=
  match env !! key with
  | Some (_ :: _) => true
  | Some [] => false
  | None => bool_decide (key ∈ inheritedNames)
  end.

(** [process.env[key] = value]: the environment of the process takes no
    variable whose name is empty or holds the character [=]; such an
    assignment leaves it as it is. *)
Definition assign (key value : list N) (env : gmap (list N) (list N))
    : gmap (list N) (list N) :=
  if bool_decide (key ≠ [] ∧ 61%N ∉ key) then <[key := value]> env else env.

(** The loop at the end of [loadMilaidyConfig]:
    <<
    for (const [key, value] of Object.entries(envVars)) {
      if (!process.env[key]) process.env[key] = value;
    }
    >>
    [envVars] is the list [Object.entries] gives, [env] holds the
    variables of [process.env]. *)
Definition exportEnvVars (envVars : list (list N * list N))
    (env : gmap (list N) (list N)) : gmap (list N) (list N) :=
  foldl (λ env entry,
           if negb (truthy env entry.1) then assign entry.1 entry.2 env
           else env) env envVars.

End ConfigEnv.

(* ===================================================================== *)
(** * More sample inputs *)
(* ===================================================================== *)

Module Cases.
Import Hooks.

(** Handler 2 throws the string "nope" (not an [Error]), every other
    handler returns; none touches the registry, and each counts its call
    in the outside world. *)
Definition failsAt2 (handler : HookHandler) : option Thrown :=
  if decide (handler = 2%positive) then Some (ThrownValue "nope") else None.

Definition counting (handler : HookHandler) (event : HookEvent)
    (s : Store) (n : nat) : Store * nat * Completion unit :=
  (s, S n, HookTrace.outcome failsAt2 handler).

(** Handler 2 under "command:new", then handlers 1 and 2 under
    "command". *)
Definition threeRegistered : Store :=
  registerAll [("command:new", 2%positive); ("command", 1%positive);
               ("command", 2%positive)] initial.

(** A plugin with a required API key, a required model name that has a
    default, and an optional base URL. *)
Definition anthropicParams : list PluginValidation.PluginParamInfo :=
  [ {| PluginValidation.key := JS.u "ANTHROPIC_API_KEY";
       PluginValidation.required := true;
       PluginValidation.sensitive := true;
       PluginValidation.type := JS.u "string";
       PluginValidation.description := JS.u "API key";
       PluginValidation.defaultValue := None |};
    {| PluginValidation.key := JS.u "ANTHROPIC_MODEL";
       PluginValidation.required := true;
       PluginValidation.sensitive := false;
       PluginValidation.type := JS.u "string";
       PluginValidation.description := JS.u "Model";
       PluginValidation.defaultValue := Some (JS.u "sonnet") |};
    {| PluginValidation.key := JS.u "ANTHROPIC_BASE_URL";
       PluginValidation.required := false;
       PluginValidation.sensitive := false;
       PluginValidation.type := JS.u "string";
       PluginValidation.description := JS.u "Base URL";
       PluginValidation.defaultValue := None |} ].

(** An environment that holds a key for the plugin. *)
Definition envWithKey : gmap (list N) (list N) :=
  {[ JS.u "ANTHROPIC_API_KEY" := JS.u "sk-ant-0123456789" ]}.

(** A request that sets the key to the empty string. *)
Definition blankKey : gmap (list N) (list N) :=
  {[ JS.u "ANTHROPIC_API_KEY" := [] ]}.

(** A request that sets both required parameters. *)
Definition fullRequest : gmap (list N) (list N) :=
  {[ JS.u "ANTHROPIC_API_KEY" := JS.u "sk-ant-abcdefghij";
     JS.u "ANTHROPIC_MODEL" := JS.u "opus" ]}.

(** A request that sets a key that is short and has the wrong prefix. *)
Definition oddKey : gmap (list N) (list N) :=
  {[ JS.u "ANTHROPIC_API_KEY" := JS.u "abc" ]}.

(** A number format without separators. *)
Definition plainNumber (n : nat) : list N := PluginValidation.decimal n.

(** Workspace files: one missing, one blank, two with text. *)
Definition workspaceFiles : list Workspace.WorkspaceBootstrapFile :=
  [ {| Workspace.name := JS.u "AGENTS.md";
       Workspace.content := None;
       Workspace.missing := true |};
    {| Workspace.name := JS.u "TOOLS.md";
       Workspace.content := Some (JS.u "   ");
       Workspace.missing := false |};
    {| Workspace.name := JS.u "IDENTITY.md";
       Workspace.content := Some (JS.u " I am Milaidy. ");
       Workspace.missing := false |};
    {| Workspace.name := JS.u "USER.md";
       Workspace.content := Some (JS.u "The user likes short answers.");
       Workspace.missing := false |} ].

(** A lower-casing that is [toLowerCase] on ASCII strings. *)
Definition lowerAscii (s : list N) : list N := JS.asciiLower <$> s.

End Cases.

(* ===================================================================== *)
(** * Properties of the hook registry *)
(* ===================================================================== *)

Module HooksFacts.
Import Hooks.

(* --------------------------------------------------------------------- *)
(** ** The store *)
(* --------------------------------------------------------------------- *)

Lemma store_wf_initial : store_wf initial.
Proof. split; intros *; cbn; by rewrite lookup_empty. Qed.

Lemma store_wf_clearHooks s : store_wf (clearHooks s).
Proof. split; intros *; cbn; by rewrite lookup_empty. Qed.

Lemma store_wf_registerHook key h s :
  store_wf s → store_wf (registerHook key h s).
Proof.
  intros [Halloc Hinj]. unfold registerHook.
  destruct (registry s !! key) as [a|] eqn:Hk; cbn.
  - rewrite insert_id by done. split; cbn; [|done].
    intros k a' Hk'. rewrite lookup_alter. case_decide; subst.
    + destruct (Halloc _ _ Hk') as [hs ->]. by eexists.
    + eauto.
  - set (a := fresh (dom (arrays s))).
    assert (Hfresh : arrays s !! a = None).
    { apply not_elem_of_dom. apply is_fresh. }
    split; cbn.
    + intros k a'. rewrite lookup_insert. case_decide; subst.
      * intros [= <-]. rewrite lookup_insert_eq. by eexists.
      * intros Hk'. destruct (Halloc _ _ Hk') as [hs Hhs].
        rewrite lookup_insert_ne; [by eexists|].
        intros ->. congruence.
    + intros k1 k2 a'. rewrite !lookup_insert.
      repeat case_decide; subst; try done.
      * intros [= <-] Hk2. destruct (Halloc _ _ Hk2) as [hs Hhs]. congruence.
      * intros Hk1 [= <-]. destruct (Halloc _ _ Hk1) as [hs Hhs]. congruence.
      * eauto.
Qed.

Lemma store_wf_registerAll regs s :
  store_wf s → store_wf (registerAll regs s).
Proof.
  revert s. induction regs as [|[k h] regs IH]; intros s Hs; [done|].
  cbn. apply IH. by apply store_wf_registerHook.
Qed.

(** After [registerHook key h], the array under [key] is the old one with
    [h] at the end. *)
Lemma get_registerHook_same key h s :
  store_wf s → get key (registerHook key h s) = Some (handlersOf key s ++ [h]).
Proof.
  intros [Halloc _]. unfold handlersOf, get, registerHook.
  destruct (registry s !! key) as [a|] eqn:Hk; cbn.
  - rewrite lookup_insert_eq. cbn. rewrite lookup_alter_eq.
    destruct (Halloc _ _ Hk) as [hs ->]. done.
  - rewrite lookup_insert_eq. cbn. by rewrite lookup_insert_eq.
Qed.

(** [registerHook key h] leaves every other key with the array it had. *)
Lemma get_registerHook_other key k' h s :
  store_wf s → k' ≠ key → get k' (registerHook key h s) = get k' s.
Proof.
  intros [Halloc Hinj] Hne. unfold get, registerHook.
  destruct (registry s !! key) as [a|] eqn:Hk; cbn.
  - rewrite lookup_insert_ne by done.
    destruct (registry s !! k') as [a'|] eqn:Hk'; cbn; [|done].
    rewrite lookup_alter_ne; [done|].
    intros ->. apply Hne. eauto.
  - rewrite lookup_insert_ne by done.
    destruct (registry s !! k') as [a'|] eqn:Hk'; cbn; [|done].
    rewrite lookup_insert_ne; [done|].
    intros Heq. destruct (Halloc _ _ Hk') as [hs Hhs].
    assert (arrays s !! a' = None); [|congruence].
    rewrite <- Heq. apply not_elem_of_dom, is_fresh.
Qed.

Lemma handlersOf_registerHook key k' h s :
  store_wf s →
  handlersOf k' (registerHook key h s) =
    handlersOf k' s ++ (if decide (k' = key) then [h] else []).
Proof.
  intros Hs. case_decide; subst.
  - unfold handlersOf at 1. by rewrite get_registerHook_same.
  - unfold handlersOf. rewrite get_registerHook_other by done.
    by rewrite app_nil_r.
Qed.

(** The array under a key lists the handlers in the order of the
    [registerHook] calls. *)
Lemma handlersOf_registerAll key regs s :
  store_wf s →
  handlersOf key (registerAll regs s) =
    handlersOf key s ++ registeredUnder key regs.
Proof.
  unfold registerAll.
  revert s. induction regs as [|[k h] regs IH]; intros s Hs.
  - cbn. by rewrite app_nil_r.
  - cbn [foldl fst snd].
    rewrite IH by (by apply store_wf_registerHook).
    rewrite handlersOf_registerHook by done.
    unfold registeredUnder. rewrite filter_cons. cbn.
    repeat case_decide; subst; try done; cbn.
    + by rewrite <- app_assoc.
    + by rewrite app_nil_r.
Qed.

Lemma handlersOf_initial key : handlersOf key initial = [].
Proof. unfold handlersOf, get. cbn. by rewrite lookup_empty. Qed.

Lemma handlersOf_clearHooks key s : handlersOf key (clearHooks s) = [].
Proof. unfold handlersOf, get. cbn. by rewrite lookup_empty. Qed.

(* --------------------------------------------------------------------- *)
(** ** Resolution of the handler list *)
(* --------------------------------------------------------------------- *)

Lemma push_all_app key source handlers :
  push_all key source handlers = handlers ++ map (pair key) source.
Proof.
  revert handlers. induction source as [|h source IH]; intros handlers; cbn.
  - by rewrite app_nil_r.
  - rewrite IH. by rewrite <- app_assoc.
Qed.

Lemma resolve_spec event s :
  resolve event s =
    map (pair (specificKey event)) (handlersOf (specificKey event) s) ++
    map (pair (generalKey event)) (handlersOf (generalKey event) s).
Proof.
  unfold resolve, handlersOf.
  destruct (get (specificKey event) s) as [sp|];
    destruct (get (generalKey event) s) as [ge|]; cbn;
    rewrite ?push_all_app; cbn; by rewrite ?app_nil_r.
Qed.

(* --------------------------------------------------------------------- *)
(** ** Keys *)
(* --------------------------------------------------------------------- *)

Lemma length_string_app (s1 s2 : string) :
  String.length (s1 +:+ s2) = String.length s1 + String.length s2.
Proof. induction s1 as [|c s1 IH]; [done|]. simpl. by f_equal. Qed.

(** The specific key of an event is never its general key: it is longer. *)
Lemma specificKey_neq_generalKey event :
  specificKey event ≠ generalKey event.
Proof.
  unfold specificKey, generalKey. intros Heq.
  apply (f_equal String.length) in Heq.
  rewrite !length_string_app in Heq. cbn in Heq. lia.
Qed.

(** How often a call shows up among the calls resolved under one key. *)
Lemma occurrences_keyed (key key' : string) (h : HookHandler)
    (hs : list HookHandler) :
  length (filter (λ c, c = (key, h)) (map (pair key') hs)) =
    if decide (key = key') then length (filter (λ h', h' = h) hs) else 0.
Proof.
  induction hs as [|h' hs IH].
  - cbn. by case_decide.
  - cbn [map]. rewrite !filter_cons, ?length_cons.
    destruct (decide (key = key')) as [->|Hne].
    + destruct (decide (h' = h)) as [->|Hh].
      * rewrite !decide_True by done. cbn. by rewrite IH.
      * rewrite !decide_False by congruence. done.
    + rewrite decide_False by congruence. done.
Qed.

(* --------------------------------------------------------------------- *)
(** ** The dispatch loop *)
(* --------------------------------------------------------------------- *)

Section Dispatch.

Context {Ext : Type}.
Variable logger_error : string → Ext → Ext * Completion unit.
Variable run :
  HookHandler → HookEvent → Store → Ext → Store * Ext * Completion unit.

Local Abbreviation attempt := (attempt logger_error run).
Local Abbreviation dispatch := (dispatch logger_error run).
Local Abbreviation triggerHook := (triggerHook logger_error run).

(** A turn of the loop is one call, of the handler of the entry. *)
Lemma attempt_invoked event entry w :
  invoked (attempt event entry w).1 = invoked w ++ [entry].
Proof.
  destruct entry as [key handler].
  unfold Hooks.attempt, try_catch, invoke, bind, lift, log_error.
  destruct (run handler event (store w) (env w)) as [[s e] [[]|err]]; [done|].
  destruct (errorText err) as [msg|raised]; [|done]. cbn.
  by destruct (logger_error (errorLine key msg) e) as [e2 r2].
Qed.

(** What a turn of the loop does to the registry and to the outside
    world, and how it ends. *)
Lemma attempt_effect event key handler w :
  (store (attempt event (key, handler) w).1,
   env (attempt event (key, handler) w).1,
   (attempt event (key, handler) w).2)
  = HookTrace.sequence logger_error run event [(key, handler)]
      (store w) (env w).
Proof.
  unfold Hooks.attempt, try_catch, invoke, bind, lift, log_error.
  cbn [HookTrace.sequence fst snd].
  destruct (run handler event (store w) (env w)) as [[s e] [[]|err]]; [done|].
  destruct err as [message|rendering|raised];
    cbn [errorText store env invoked]; [| |done].
  - change (errorLine key message)
      with (HookTrace.expectedLine key message).
    by destruct (logger_error (HookTrace.expectedLine key message) e)
      as [e2 [[]|raised]].
  - change (errorLine key rendering)
      with (HookTrace.expectedLine key rendering).
    by destruct (logger_error (HookTrace.expectedLine key rendering) e)
      as [e2 [[]|raised]].
Qed.

Lemma sequence_cons event entry rest s e :
  HookTrace.sequence logger_error run event (entry :: rest) s e =
    let '(s1, e1, r) :=
      HookTrace.sequence logger_error run event [entry] s e in
    match r with
    | Returned _ => HookTrace.sequence logger_error run event rest s1 e1
    | Threw raised => (s1, e1, Threw raised)
    end.
Proof.
  cbn [HookTrace.sequence].
  destruct (run entry.2 event s e) as [[s1 e1] [[]|err]]; [done|].
  destruct err as [message|rendering|raised]; [| |done].
  - by destruct (logger_error (HookTrace.expectedLine entry.1 message) e1)
      as [e2 [[]|raised]].
  - by destruct (logger_error (HookTrace.expectedLine entry.1 rendering) e1)
      as [e2 [[]|raised]].
Qed.

(** The loop does to the registry and to the outside world what
    [HookTrace.sequence] says, and ends as it says. *)
Lemma dispatch_sequence handlers event w :
  (store (dispatch handlers event w).1, env (dispatch handlers event w).1,
   (dispatch handlers event w).2)
  = HookTrace.sequence logger_error run event handlers (store w) (env w).
Proof.
  revert w. induction handlers as [|[key handler] rest IH]; intros w; [done|].
  rewrite sequence_cons, <- attempt_effect.
  cbn [Hooks.dispatch]. unfold bind at 1 2 3.
  destruct (attempt event (key, handler) w) as [w' [[]|raised]]; [|done].
  apply IH.
Qed.

(** The calls of the loop are an initial segment of the list, the whole
    list when the loop ends normally. *)
Lemma dispatch_invoked handlers event w :
  ∃ n, invoked (dispatch handlers event w).1 = invoked w ++ take n handlers
       ∧ ((dispatch handlers event w).2 = Returned tt →
          take n handlers = handlers).
Proof.
  revert w. induction handlers as [|entry rest IH]; intros w.
  - exists 0. cbn. by rewrite app_nil_r.
  - cbn [Hooks.dispatch]. unfold bind.
    pose proof (attempt_invoked event entry w) as Hcall.
    destruct (attempt event entry w) as [w' [[]|raised]]; cbn [fst] in Hcall.
    + destruct (IH w') as (n & Hn & Hall). exists (S n). split.
      * rewrite Hn, Hcall. by rewrite <- app_assoc.
      * intros Hr. cbn [take]. f_equal. by apply Hall.
    + exists 1. split; [|done]. cbn [fst take]. by rewrite Hcall, take_0.
Qed.

(** [triggerHook] is the loop over the list resolved at its start. *)
Lemma triggerHook_dispatch event w :
  triggerHook event w = dispatch (resolve event (store w)) event w.
Proof.
  unfold Hooks.triggerHook.
  by destruct (resolve event (store w)) as [|entry rest].
Qed.

(** When every failure can be logged, nothing ends the sequence early. *)
Lemma sequence_returns event entries s e :
  HookTrace.loggable logger_error run event →
  (HookTrace.sequence logger_error run event entries s e).2 = Returned tt.
Proof.
  intros [Hrender Hlog].
  revert s e. induction entries as [|entry rest IH]; intros s e; [done|].
  cbn [HookTrace.sequence].
  pose proof (Hrender entry.2 s e) as Hr.
  destruct (run entry.2 event s e) as [[s1 e1] [[]|err]]; [apply IH|].
  destruct err as [message|rendering|raised].
  - pose proof (Hlog (HookTrace.expectedLine entry.1 message) e1) as Hl.
    destruct (logger_error (HookTrace.expectedLine entry.1 message) e1)
      as [e2 r2]. cbn in Hl. subst r2. apply IH.
  - pose proof (Hlog (HookTrace.expectedLine entry.1 rendering) e1) as Hl.
    destruct (logger_error (HookTrace.expectedLine entry.1 rendering) e1)
      as [e2 r2]. cbn in Hl. subst r2. apply IH.
  - by destruct (Hr raised).
Qed.

(** [triggerHook] does what the sequence of the entries it resolves at
    its start does. *)
Lemma triggerHook_sequence event w :
  (store (triggerHook event w).1, env (triggerHook event w).1,
   (triggerHook event w).2)
  = HookTrace.sequence logger_error run event (resolve event (store w))
      (store w) (env w).
Proof. rewrite triggerHook_dispatch. apply dispatch_sequence. Qed.

(** When every failure can be logged, [triggerHook] returns normally and
    has called every entry it resolved. *)
Lemma triggerHook_loggable event w :
  HookTrace.loggable logger_error run event →
  (triggerHook event w).2 = Returned tt
  ∧ invoked (triggerHook event w).1 = invoked w ++ resolve event (store w).
Proof.
  intros Hlog.
  assert (Hr : (triggerHook event w).2 = Returned tt).
  { pose proof (triggerHook_sequence event w) as Hseq.
    apply (f_equal snd) in Hseq. cbn [snd] in Hseq.
    rewrite Hseq. by apply sequence_returns. }
  split; [done|]. rewrite triggerHook_dispatch in *.
  destruct (dispatch_invoked (resolve event (store w)) event w)
    as (n & Hn & Hall).
  rewrite Hn. by rewrite Hall.
Qed.

(** When the handlers leave the registry as they find it, so does the
    sequence of their calls. *)
Lemma sequence_store event entries s e :
  (∀ h s e, (run h event s e).1.1 = s) →
  (HookTrace.sequence logger_error run event entries s e).1.1 = s.
Proof.
  intros Hkeep.
  revert e. induction entries as [|entry rest IH]; intros e; [done|].
  cbn [HookTrace.sequence].
  pose proof (Hkeep entry.2 s e) as Hs.
  destruct (run entry.2 event s e) as [[s1 e1] [[]|err]];
    cbn in Hs; subst s1; [apply IH|].
  destruct err as [message|rendering|raised]; [| |done].
  - destruct (logger_error (HookTrace.expectedLine entry.1 message) e1)
      as [e2 [[]|raised]]; [apply IH|done].
  - destruct (logger_error (HookTrace.expectedLine entry.1 rendering) e1)
      as [e2 [[]|raised]]; [apply IH|done].
Qed.

(* --------------------------------------------------------------------- *)
(** ** Nothing registered *)
(* --------------------------------------------------------------------- *)

(** C7. When neither the specific nor the general key of the event has a
    handler, [triggerHook] returns normally and leaves the world as it
    was: no handler is called, nothing is logged, the registry is the
    same. *)
Theorem triggerHook_without_handlers :
  ∀ (event : HookEvent) (w : World Ext),
    handlersOf (specificKey event) (store w) = [] →
    handlersOf (generalKey event) (store w) = [] →
    triggerHook event w = (w, Returned tt).
Proof.
  intros event w Hs Hg. unfold Hooks.triggerHook.
  rewrite resolve_spec, Hs, Hg. done.
Qed.

End Dispatch.

(* --------------------------------------------------------------------- *)
(** ** The handler list is resolved once *)
(* --------------------------------------------------------------------- *)

(** A turn of the loop with handlers that are blind to the registry goes
    the same way whatever is done to the registry in between. *)
Lemma attempt_registryBlind {Ext : Type}
    (logger_error : string → Ext → Ext * Completion unit)
    (run : HookHandler → HookEvent → Store → Ext →
           Store * Ext * Completion unit)
    (ops : HookHandler → list RegistryOp) event entry (w1 w2 : World Ext) :
  HookTrace.registryBlind run →
  env w1 = env w2 → invoked w1 = invoked w2 →
  env (attempt logger_error (interleaved run ops) event entry w1).1
    = env (attempt logger_error run event entry w2).1
  ∧ invoked (attempt logger_error (interleaved run ops) event entry w1).1
    = invoked (attempt logger_error run event entry w2).1
  ∧ (attempt logger_error (interleaved run ops) event entry w1).2
    = (attempt logger_error run event entry w2).2.
Proof.
  intros Hblind Henv Hinv. destruct entry as [key handler].
  rewrite !attempt_invoked.
  split; [|split; [by rewrite Hinv|]];
    unfold attempt, try_catch, invoke, bind, lift, log_error, interleaved;
    destruct (Hblind handler event (store w1) (store w2) (env w2))
      as [He Hr]; rewrite Henv;
    destruct (run handler event (store w1) (env w2)) as [[s1 e1] r1];
    destruct (run handler event (store w2) (env w2)) as [[s2 e2] r2];
    cbn in He, Hr; subst e2 r2;
    (destruct r1 as [[]|err]; [done|]);
    (destruct (errorText err) as [msg|raised]; [|done]); cbn;
    by destruct (logger_error (errorLine key msg) e1) as [e3 r3].
Qed.

Lemma dispatch_registryBlind {Ext : Type}
    (logger_error : string → Ext → Ext * Completion unit)
    (run : HookHandler → HookEvent → Store → Ext →
           Store * Ext * Completion unit)
    (ops : HookHandler → list RegistryOp) handlers event (w1 w2 : World Ext) :
  HookTrace.registryBlind run →
  env w1 = env w2 → invoked w1 = invoked w2 →
  env (dispatch logger_error (interleaved run ops) handlers event w1).1
    = env (dispatch logger_error run handlers event w2).1
  ∧ invoked (dispatch logger_error (interleaved run ops) handlers event w1).1
    = invoked (dispatch logger_error run handlers event w2).1
  ∧ (dispatch logger_error (interleaved run ops) handlers event w1).2
    = (dispatch logger_error run handlers event w2).2.
Proof.
  intros Hblind. revert w1 w2.
  induction handlers as [|entry rest IH]; intros w1 w2 Henv Hinv; [done|].
  cbn [dispatch]. unfold bind.
  destruct (attempt_registryBlind logger_error run ops event entry w1 w2
              Hblind Henv Hinv) as (He & Hi & Hr).
  destruct (attempt logger_error (interleaved run ops) event entry w1)
    as [w1' r1].
  destruct (attempt logger_error run event entry w2) as [w2' r2].
  cbn in He, Hi, Hr. subst r2.
  destruct r1 as [[]|raised]; [by apply IH|done].
Qed.


(* --------------------------------------------------------------------- *)
(** ** Frame of registerHook *)
(* --------------------------------------------------------------------- *)

(** C9. [registerHook key handler] changes nothing under any other key:
    the map holds the same array there, with the same handlers in the same
    order. *)
Theorem registerHook_frame :
  ∀ (s : Store) (key k' : string) (h : HookHandler),
    store_wf s → k' ≠ key →
    registry (registerHook key h s) !! k' = registry s !! k'
    ∧ get k' (registerHook key h s) = get k' s
    ∧ handlersOf k' (registerHook key h s) = handlersOf k' s.
Proof.
  intros s key k' h Hs Hne.
  assert (Hget : get k' (registerHook key h s) = get k' s)
    by (by apply get_registerHook_other).
  split; [|split; [done|]].
  - unfold registerHook.
    destruct (registry s !! key); cbn; by rewrite lookup_insert_ne.
  - unfold handlersOf. by rewrite Hget.
Qed.

(* --------------------------------------------------------------------- *)
(** ** Failures that the catch clause cannot log *)
(* --------------------------------------------------------------------- *)

(** C1. H1 is registered for "command" and H2 for "command:new", in either
    order, and H2 throws the value of [Object.create(null)]. The event of
    type "command" and action "new" calls H2, and the dispatch ends there
    with the [TypeError] that [String(err)] throws in the catch clause:
    H1, the handler of the general key, is never called, and nothing is
    logged. *)
Theorem triggerHook_stops_before_general_handlers :
  let later_specific :=
    registerHook "command:new" 2%positive
      (registerHook "command" 1%positive initial) in
  let later_general :=
    registerHook "command" 1%positive
      (registerHook "command:new" 2%positive initial) in
  (handlersOf "command:new" later_specific = [2%positive]
   ∧ handlersOf "command" later_specific = [1%positive]
   ∧ triggerHook Samples.write_line Samples.opaque Samples.commandNew
       (Samples.start later_specific)
     = ({| store := later_specific; env := ["H2 called"];
           invoked := [("command:new", 2%positive)] |},
        Threw Samples.typeError))
  ∧ (handlersOf "command:new" later_general = [2%positive]
     ∧ handlersOf "command" later_general = [1%positive]
     ∧ triggerHook Samples.write_line Samples.opaque Samples.commandNew
         (Samples.start later_general)
       = ({| store := later_general; env := ["H2 called"];
             invoked := [("command:new", 2%positive)] |},
          Threw Samples.typeError)).
Proof. vm_compute. done. Qed.

(** C2. Handler 3, registered for "command:new", throws an [Error] whose
    message is a symbol; handlers 1 and 4 are registered for "command".
    The dispatch of the event of type "command" and action "new" calls
    handler 3 and then throws the [TypeError] of the template literal to
    its caller: the two handlers that remain in the list are not called,
    and the failure of handler 3 is not logged. *)
Theorem triggerHook_propagates_failure_of_catch :
  let s :=
    registerHook "command" 4%positive
      (registerHook "command" 1%positive
         (registerHook "command:new" 3%positive initial)) in
  resolve Samples.commandNew s =
    [("command:new", 3%positive); ("command", 1%positive);
     ("command", 4%positive)]
  ∧ triggerHook Samples.write_line Samples.opaque Samples.commandNew
      (Samples.start s)
    = ({| store := s; env := ["H3 called"];
          invoked := [("command:new", 3%positive)] |},
       Threw Samples.symbolTypeError).
Proof. vm_compute. done. Qed.

(** C6. Handler 2, which throws the value of [Object.create(null)], is
    registered twice for "command": the array of that key holds it twice,
    and the dispatch of a command event calls it once and ends with the
    [TypeError] of the catch clause. *)
Theorem registered_twice_called_once :
  let twice :=
    registerHook "command" 2%positive
      (registerHook "command" 2%positive initial) in
  handlersOf "command" twice = [2%positive; 2%positive]
  ∧ generalKey Samples.commandNew = "command"
  ∧ triggerHook Samples.write_line Samples.opaque Samples.commandNew
      (Samples.start twice)
    = ({| store := twice; env := ["H2 called"];
          invoked := [("command", 2%positive)] |},
       Threw Samples.typeError).
Proof. vm_compute. done. Qed.

(** C10. Handler 1 is registered under the key "command:new", after
    handler 2, which throws the value of [Object.create(null)]. Neither
    the event of type "command" and action "new", for which the key is
    the specific one, nor the event of type "command:new", for which it
    is the general one, calls handler 1: both dispatches end after
    handler 2 with the [TypeError] of the catch clause. *)
Theorem colon_key_handler_not_reached :
  let s :=
    registerHook "command:new" 1%positive
      (registerHook "command:new" 2%positive initial) in
  handlersOf "command:new" s = [2%positive; 1%positive]
  ∧ (specificKey Samples.commandNew = "command:new"
     ∧ triggerHook Samples.write_line Samples.opaque Samples.commandNew
         (Samples.start s)
       = ({| store := s; env := ["H2 called"];
             invoked := [("command:new", 2%positive)] |},
          Threw Samples.typeError))
  ∧ (generalKey Samples.colonTyped = "command:new"
     ∧ triggerHook Samples.write_line Samples.opaque Samples.colonTyped
         (Samples.start s)
       = ({| store := s; env := ["H2 called"];
             invoked := [("command:new", 2%positive)] |},
          Threw Samples.typeError)).
Proof. vm_compute. done. Qed.

(* --------------------------------------------------------------------- *)
(** ** The theorems at sample inputs *)
(* --------------------------------------------------------------------- *)

Lemma store_wf_bothRegistered : store_wf Samples.bothRegistered.
Proof.
  unfold Samples.bothRegistered.
  repeat apply store_wf_registerHook. apply store_wf_initial.
Qed.

Lemma registryBlind_behaviour : HookTrace.registryBlind Samples.behaviour.
Proof.
  intros h event s1 s2 e. unfold Samples.behaviour.
  by repeat case_decide.
Qed.


(** The event of [/new] in the empty registry. *)
Lemma triggerHook_without_handlers_witness :
  let w := Samples.start initial in
  handlersOf (specificKey Samples.commandNew) (store w) = []
  ∧ handlersOf (generalKey Samples.commandNew) (store w) = []
  ∧ triggerHook Samples.write_line Samples.behaviour Samples.commandNew w
    = (w, Returned tt).
Proof.
  intros w.
  assert (Hs : handlersOf (specificKey Samples.commandNew) (store w) = [])
    by reflexivity.
  assert (Hg : handlersOf (generalKey Samples.commandNew) (store w) = [])
    by reflexivity.
  split; [exact Hs|]. split; [exact Hg|].
  exact (triggerHook_without_handlers
    Samples.write_line Samples.behaviour Samples.commandNew w Hs Hg).
Defined.

(** Registering under "session" leaves "command" and "command:new" as
    they were. *)
Lemma registerHook_frame_witness :
  let s := Samples.bothRegistered in
  store_wf s ∧ "command" ≠ "session"
  ∧ registry (registerHook "session" 5%positive s) !! "command"
    = registry s !! "command"
  ∧ get "command" (registerHook "session" 5%positive s) = get "command" s
  ∧ handlersOf "command" (registerHook "session" 5%positive s)
    = handlersOf "command" s.
Proof.
  intros s.
  assert (Hne : "command" ≠ "session") by (intros Heq; discriminate Heq).
  split; [apply store_wf_bothRegistered|]. split; [exact Hne|].
  exact (registerHook_frame s "session" "command" 5%positive
    store_wf_bothRegistered Hne).
Defined.

(* --------------------------------------------------------------------- *)
(** ** Worked examples *)
(* --------------------------------------------------------------------- *)

(** The throwing handler is called first, its error is logged under its
    key, and the general handler runs after it. *)
Example failing_specific_example :
  let '(w, r) := triggerHook Samples.write_line Samples.behaviour
                   Samples.commandNew (Samples.start Samples.bothRegistered) in
  r = Returned tt ∧
  invoked w = [("command:new", 2%positive); ("command", 1%positive)] ∧
  env w = ["specific called";
           HookTrace.expectedLine "command:new" "boom";
           "general called"].
Proof. vm_compute. done. Qed.

(** A handler that replaces the registry while the dispatch is under way:
    the dispatch still calls handler 1, resolved at the start, and does not
    call handler 4, registered meanwhile. *)
Example registry_replaced_example :
  let s := registerHook "command" 1%positive
             (registerHook "command:new" 3%positive initial) in
  let '(w, r) := triggerHook Samples.write_line Samples.behaviour
                   Samples.commandNew (Samples.start s) in
  r = Returned tt ∧
  env w = ["registry replaced"; "general called"] ∧
  invoked w = [("command:new", 3%positive); ("command", 1%positive)] ∧
  handlersOf "command" (store w) = [4%positive] ∧
  handlersOf "command:new" (store w) = [].
Proof. vm_compute. done. Qed.

End HooksFacts.

(* ===================================================================== *)
(** * Properties of the queue types *)
(* ===================================================================== *)

Module MessagesFacts.
Import Messages.



End MessagesFacts.

(* ===================================================================== *)
(** * Properties of the queue controller *)
(* ===================================================================== *)

Module QueueFacts.
Import Queue.

Section ControllerFacts.

Context {Message : Type}.
Variable summarizer : list Message → Message.
Variable defaultDebounceMs defaultCap : nat.
Variable defaultDrop : Messages.QueueDropPolicy.

Local Abbreviation resolveMode := (resolveMode).
Local Abbreviation resolveCap := (resolveCap defaultCap).
Local Abbreviation resolveDrop := (resolveDrop defaultDrop).
Local Abbreviation resolveSession :=
  (resolveSession (Message := Message) defaultDebounceMs defaultCap
     defaultDrop).
Local Abbreviation buffer := (buffer summarizer).
Local Abbreviation enqueue := (enqueue summarizer).
Local Abbreviation submit :=
  (submit summarizer defaultDebounceMs defaultCap defaultDrop).
Local Abbreviation submitAll :=
  (submitAll summarizer defaultDebounceMs defaultCap defaultDrop).

(** Evicting from the front until at cap splits the list at the point
    that leaves [cap] entries. *)
Lemma evictOldest_spec (cap : nat) (entries : list Message) :
  evictOldest cap entries =
    (take (length entries - cap) entries, drop (length entries - cap) entries).
Proof.
  induction entries as [|oldest rest IH]; [done|].
  cbn [evictOldest]. destruct (cap <? length (oldest :: rest))%nat eqn:Hlt.
  - apply Nat.ltb_lt in Hlt. cbn [length] in *. rewrite IH.
    replace (S (length rest) - cap) with (S (length rest - cap)) by lia.
    done.
  - apply Nat.ltb_ge in Hlt.
    replace (length (oldest :: rest) - cap) with 0 by lia. done.
Qed.

Lemma length_lastN (n : nat) (l : list Message) :
  n ≤ length l → length (lastN n l) = n.
Proof. intros Hn. unfold lastN. rewrite length_drop. lia. Qed.

(** Keeping the last [n] twice, with more elements added in between, is
    keeping the last [n] once. *)
Lemma lastN_app_lastN (n : nat) (l k : list Message) :
  lastN n (lastN n l ++ k) = lastN n (l ++ k).
Proof.
  unfold lastN. rewrite !length_app, length_drop.
  destruct (decide (length l ≤ n)) as [Hle|Hgt].
  - replace (length l - n) with 0 by lia. cbn [drop].
    by replace (length l - 0) with (length l) by lia.
  - replace (length l - (length l - n) + length k - n) with (length k) by lia.
    replace (length l + length k - n) with ((length l - n) + length k) by lia.
    rewrite <- (drop_drop (l ++ k)).
    rewrite (drop_app_le l k (length l - n)) by lia. done.
Qed.

(** Under [old], the pending messages after step 3 are the last [cap] of
    the old ones followed by the new one. *)
Lemma pending_buffer_old st message :
  dropPolicy st = Messages.old →
  pending (buffer st message).1 = lastN (cap st) (pending st ++ [message]).
Proof.
  intros Hold. unfold Queue.buffer, lastN. rewrite Hold.
  destruct (cap st <? length (pending st ++ [message]))%nat eqn:Hlt.
  - by rewrite evictOldest_spec.
  - apply Nat.ltb_ge in Hlt. cbn.
    by replace (length (pending st ++ [message]) - cap st) with 0 by lia.
Qed.

(** Under [new], a message that would exceed the cap changes nothing. *)
Lemma buffer_new_full st message :
  dropPolicy st = Messages.new →
  cap st < length (pending st) + 1 →
  buffer st message = (st, dropped Messages.new [message]).
Proof.
  intros Hnew Hfull. unfold Queue.buffer. rewrite Hnew.
  assert ((cap st <? length (pending st ++ [message]))%nat = true) as ->;
    [|done].
  apply Nat.ltb_lt. rewrite length_app. cbn. lia.
Qed.

Lemma buffer_keeps st message :
  sessionKey (buffer st message).1 = sessionKey st
  ∧ inFlight (buffer st message).1 = inFlight st.
Proof.
  unfold Queue.buffer.
  destruct (cap st <? length (pending st ++ [message]))%nat; [|done].
  destruct (dropPolicy st); [|done..].
  by destruct (evictOldest (cap st) (pending st ++ [message])).
Qed.

(** What [enqueue] leaves under the key of the session. *)
Lemma enqueue_lookup now st message sessions :
  (enqueue now st message sessions).1 !! sessionKey st
    = Some (rearm now (buffer st message).1).
Proof.
  unfold Queue.enqueue. destruct (buffer st message) as [st' d]. cbn.
  apply lookup_insert_eq.
Qed.

Lemma enqueue_decision now st message sessions :
  (enqueue now st message sessions).2 = (buffer st message).2.
Proof. unfold Queue.enqueue. by destruct (buffer st message). Qed.

(** A submission in a mode that buffers is steps 3 and 4 on the resolved
    session. *)
Lemma submit_buffers cfg now key message channel sessions :
  buffers (resolveMode cfg channel) (inFlightOf key sessions) = true →
  submit cfg now key message channel sessions =
    enqueue now (resolveSession cfg key channel sessions) message sessions.
Proof.
  unfold Queue.submit, inFlightOf. cbn [mode inFlight Queue.resolveSession].
  destruct (resolveMode cfg channel); cbn; try done.
  all: by intros ->%negb_true_iff.
Qed.

Lemma pendingOf_submit cfg now key message channel sessions :
  buffers (resolveMode cfg channel) (inFlightOf key sessions) = true →
  pendingOf key (submit cfg now key message channel sessions).1 =
    pending (buffer (resolveSession cfg key channel sessions) message).1.
Proof.
  intros Hb. rewrite submit_buffers by done. unfold pendingOf.
  change key with (sessionKey (resolveSession cfg key channel sessions)) at 1.
  by rewrite enqueue_lookup.
Qed.

Lemma inFlightOf_submit cfg now key message channel sessions :
  buffers (resolveMode cfg channel) (inFlightOf key sessions) = true →
  inFlightOf key (submit cfg now key message channel sessions).1 =
    inFlightOf key sessions.
Proof.
  intros Hb. rewrite submit_buffers by done. unfold inFlightOf at 1.
  change key with (sessionKey (resolveSession cfg key channel sessions)) at 1.
  rewrite enqueue_lookup. cbn.
  by rewrite (proj2 (buffer_keeps _ _)).
Qed.

(** Under [old], a run of submissions leaves the last [cap] of what was
    pending followed by what was submitted. *)
Lemma pendingOf_submitAll_old cfg key channel rest :
  resolveDrop cfg = Messages.old →
  ∀ message now sessions,
    buffers (resolveMode cfg channel) (inFlightOf key sessions) = true →
    pendingOf key (submitAll cfg now key (message :: rest) channel sessions) =
      lastN (resolveCap cfg) (pendingOf key sessions ++ message :: rest).
Proof.
  intros Hold. induction rest as [|next rest IH]; intros message now sessions Hb.
  - cbn [Queue.submitAll]. rewrite pendingOf_submit by done.
    by rewrite pending_buffer_old.
  - cbn [Queue.submitAll] in *. rewrite IH.
    + rewrite pendingOf_submit by done.
      rewrite pending_buffer_old by done. cbn [cap pending Queue.resolveSession].
      fold (pendingOf key sessions).
      rewrite lastN_app_lastN. by rewrite <- app_assoc.
    + by rewrite inFlightOf_submit.
Qed.

(* --------------------------------------------------------------------- *)
(** ** Drop policy [old] *)
(* --------------------------------------------------------------------- *)

(** C3. With mode queue, cap 3 and drop policy old, submitting A, B, C, D
    to a new session with no flush in between leaves [B; C; D] pending.
    In general, when a submission that is buffered under policy old, or a
    run of them, takes the session over its cap, exactly [cap] messages
    are pending afterwards, and they are the last [cap] of those pending
    before followed by those submitted, in that order. *)
Theorem drop_old_keeps_most_recent :
  (∀ (A B C D : Message) (now : nat) (key channel : string)
     (debounce : option nat) (debounceBy : option (gmap string nat)),
     let cfg :=
       {| Messages.mode := Some Messages.queue;
          Messages.byChannel := None;
          Messages.debounceMs := debounce;
          Messages.debounceMsByChannel := debounceBy;
          Messages.cap := Some 3;
          Messages.drop := Some Messages.old |} in
     pendingOf key (submitAll cfg now key [A; B; C; D] channel ∅)
       = [B; C; D])
  ∧ (∀ (cfg : Messages.QueueConfig) (now : nat) (key channel : string)
       (sessions : gmap string (SessionState Message))
       (message : Message) (rest : list Message),
       resolveDrop cfg = Messages.old →
       buffers (resolveMode cfg channel) (inFlightOf key sessions) = true →
       resolveCap cfg < length (pendingOf key sessions ++ message :: rest) →
       let after := submitAll cfg now key (message :: rest) channel sessions in
       length (pendingOf key after) = resolveCap cfg
       ∧ pendingOf key after =
           lastN (resolveCap cfg)
             (pendingOf key sessions ++ message :: rest)).
Proof.
  split.
  - intros A B C D now key channel debounce debounceBy cfg.
    rewrite pendingOf_submitAll_old by done.
    unfold pendingOf. by rewrite lookup_empty.
  - intros cfg now key channel sessions message rest Hold Hb Hfull after.
    assert (Hafter : pendingOf key after =
                       lastN (resolveCap cfg)
                         (pendingOf key sessions ++ message :: rest))
      by (by apply pendingOf_submitAll_old).
    split; [|done]. rewrite Hafter. apply length_lastN. lia.
Qed.

(* --------------------------------------------------------------------- *)
(** ** Drop policy [new] *)
(* --------------------------------------------------------------------- *)

(** C4. When a submission that is buffered under policy new would take
    the session over its cap, [submit] answers [dropped], the message is
    not appended, and the pending messages are the same as before, in
    content and in number. *)
Theorem drop_new_rejects_incoming :
  ∀ (cfg : Messages.QueueConfig) (now : nat) (key channel : string)
    (sessions : gmap string (SessionState Message)) (message : Message),
    resolveDrop cfg = Messages.new →
    buffers (resolveMode cfg channel) (inFlightOf key sessions) = true →
    resolveCap cfg < length (pendingOf key sessions) + 1 →
    let result := submit cfg now key message channel sessions in
    result.2 = dropped Messages.new [message]
    ∧ pendingOf key result.1 = pendingOf key sessions
    ∧ length (pendingOf key result.1) = length (pendingOf key sessions).
Proof.
  intros cfg now key channel sessions message Hnew Hb Hfull result.
  assert (Hbuffer :
    buffer (resolveSession cfg key channel sessions) message =
      (resolveSession cfg key channel sessions,
       dropped Messages.new [message]))
    by (by apply buffer_new_full).
  assert (Hpending : pendingOf key result.1 = pendingOf key sessions).
  { unfold result. rewrite pendingOf_submit by done. by rewrite Hbuffer. }
  split; [|split; [done|by rewrite Hpending]].
  unfold result. rewrite submit_buffers by done.
  by rewrite enqueue_decision, Hbuffer.
Qed.

End ControllerFacts.

(* --------------------------------------------------------------------- *)
(** ** The theorems at sample inputs *)
(* --------------------------------------------------------------------- *)

(** Three messages pending at cap 3, a fourth and a fifth submitted under
    policy old. *)
Lemma drop_old_keeps_most_recent_witness :
  let cfg := Samples.queueOfThree Messages.old in
  let sessions :=
    Samples.submitAllText cfg 0 "main" ["A"; "B"; "C"] "telegram" ∅ in
  let after :=
    Samples.submitAllText cfg 3 "main" ["D"; "E"] "telegram" sessions in
  (Queue.resolveDrop Messages.old cfg = Messages.old
   ∧ buffers (Queue.resolveMode cfg "telegram") (inFlightOf "main" sessions)
     = true
   ∧ Queue.resolveCap 20 cfg < length (pendingOf "main" sessions ++ ["D"; "E"]))
  ∧ length (pendingOf "main" after) = 3
  ∧ pendingOf "main" after = ["C"; "D"; "E"].
Proof.
  intros cfg sessions after.
  assert (Hold : Queue.resolveDrop Messages.old cfg = Messages.old)
    by reflexivity.
  assert (Hb : buffers (Queue.resolveMode cfg "telegram")
                 (inFlightOf "main" sessions) = true) by reflexivity.
  assert (Hfull : Queue.resolveCap 20 cfg <
                    length (pendingOf "main" sessions ++ ["D"; "E"])).
  { vm_compute. lia. }
  split; [by repeat split|].
  exact (proj2 (drop_old_keeps_most_recent Samples.joinAll 1000 20
    Messages.old) cfg 3 "main" "telegram" sessions "D" ["E"] Hold Hb Hfull).
Defined.

(** Three messages pending at cap 3, a fourth submitted under policy
    new. *)
Lemma drop_new_rejects_incoming_witness :
  let cfg := Samples.queueOfThree Messages.new in
  let sessions :=
    Samples.submitAllText cfg 0 "main" ["A"; "B"; "C"] "telegram" ∅ in
  let result := Samples.submitText cfg 3 "main" "D" "telegram" sessions in
  (Queue.resolveDrop Messages.old cfg = Messages.new
   ∧ buffers (Queue.resolveMode cfg "telegram") (inFlightOf "main" sessions)
     = true
   ∧ Queue.resolveCap 20 cfg < length (pendingOf "main" sessions) + 1)
  ∧ result.2 = dropped Messages.new ["D"]
  ∧ pendingOf "main" result.1 = ["A"; "B"; "C"]
  ∧ length (pendingOf "main" result.1) = 3.
Proof.
  intros cfg sessions result.
  assert (Hnew : Queue.resolveDrop Messages.old cfg = Messages.new)
    by reflexivity.
  assert (Hb : buffers (Queue.resolveMode cfg "telegram")
                 (inFlightOf "main" sessions) = true) by reflexivity.
  assert (Hfull : Queue.resolveCap 20 cfg <
                    length (pendingOf "main" sessions) + 1).
  { vm_compute. lia. }
  split; [by repeat split|].
  exact (drop_new_rejects_incoming Samples.joinAll 1000 20 Messages.old
    cfg 3 "main" "telegram" sessions "D" Hnew Hb Hfull).
Defined.

End QueueFacts.

(* ===================================================================== *)
(** * More on the hook registry *)
(* ===================================================================== *)

Module RegistryFacts.
Import Hooks HookTrace HooksFacts.

(* --------------------------------------------------------------------- *)
(** ** clearHooks *)
(* --------------------------------------------------------------------- *)

(** X1. [clearHooks] forgets everything: afterwards every lookup is
    undefined, a dispatch of any event calls no handler and leaves the
    world as it is, and a handler registered next is alone under its key
    (the handlers the key had before the clear do not come back). *)
Theorem clearHooks_forgets_everything :
  ∀ (s : Store),
    (∀ key, get key (clearHooks s) = None)
    ∧ (∀ (Ext : Type) (logger_error : string → Ext → Ext * Completion unit)
         (run : HookHandler → HookEvent → Store → Ext →
                Store * Ext * Completion unit)
         (event : HookEvent) (e : Ext) (calls : list (string * HookHandler)),
         let w := {| store := clearHooks s; env := e; invoked := calls |} in
         triggerHook logger_error run event w = (w, Returned tt))
    ∧ (∀ key h,
         get key (registerHook key h (clearHooks s)) = Some [h]
         ∧ ∀ k', k' ≠ key → get k' (registerHook key h (clearHooks s)) = None).
Proof.
  intros s.
  assert (Hnone : ∀ key, get key (clearHooks s) = None).
  { intros key. unfold get. cbn. by rewrite lookup_empty. }
  split; [done|]. split.
  - intros Ext logger_error run event e calls w.
    unfold triggerHook, resolve. cbn [store w]. by rewrite !Hnone.
  - intros key h. unfold get, registerHook. cbn.
    rewrite lookup_empty. cbn. split.
    + rewrite lookup_insert_eq. cbn. by rewrite lookup_insert_eq.
    + intros k' Hne. rewrite lookup_insert_ne by done.
      by rewrite lookup_empty.
Qed.

(* --------------------------------------------------------------------- *)
(** ** The registry under any sequence of calls *)
(* --------------------------------------------------------------------- *)

Lemma store_wf_applyOp s op : store_wf s → store_wf (applyOp s op).
Proof.
  destruct op; cbn; [apply store_wf_registerHook | intros _; apply store_wf_clearHooks].
Qed.

Lemma store_wf_foldl_applyOp ops s :
  store_wf s → store_wf (foldl applyOp s ops).
Proof.
  revert s. induction ops as [|op ops IH]; intros s Hs; [done|].
  cbn. apply IH. by apply store_wf_applyOp.
Qed.

Lemma arrays_inhabited_registerHook key h s :
  store_wf s → arrays_inhabited s → arrays_inhabited (registerHook key h s).
Proof.
  intros Hs Hinh k' hs. destruct (decide (k' = key)) as [->|Hne].
  - rewrite get_registerHook_same by done. intros [= <-].
    by destruct (handlersOf key s).
  - rewrite get_registerHook_other by done. apply Hinh.
Qed.

Lemma arrays_inhabited_foldl_applyOp ops s :
  store_wf s → arrays_inhabited s → arrays_inhabited (foldl applyOp s ops).
Proof.
  revert s. induction ops as [|op ops IH]; intros s Hs Hinh; [done|].
  cbn [foldl]. apply IH; [by apply store_wf_applyOp|].
  destruct op as [k h|]; cbn.
  - by apply arrays_inhabited_registerHook.
  - intros key hs. unfold get. cbn. by rewrite lookup_empty.
Qed.

Lemma registeredUnder_app key regs1 regs2 :
  registeredUnder key (regs1 ++ regs2) =
    registeredUnder key regs1 ++ registeredUnder key regs2.
Proof. unfold registeredUnder. by rewrite filter_app, fmap_app. Qed.

Lemma handlersOf_foldl_applyOp key ops :
  handlersOf key (foldl applyOp initial ops) =
    registeredUnder key (sinceLastClear ops).
Proof.
  induction ops as [|op ops IH] using rev_ind.
  - apply handlersOf_initial.
  - unfold sinceLastClear in *. rewrite !foldl_app. cbn [foldl].
    destruct op as [k h|]; cbn [applyOp].
    + rewrite handlersOf_registerHook
        by (apply store_wf_foldl_applyOp, store_wf_initial).
      rewrite IH, registeredUnder_app. f_equal.
      unfold registeredUnder. rewrite filter_cons. cbn.
      repeat case_decide; simplify_eq; done.
    + apply handlersOf_clearHooks.
Qed.

(** X2. Whatever sequence of [registerHook] and [clearHooks] calls the
    registry has seen since the module was loaded, the handlers under a
    key are exactly those registered under it after the last [clearHooks],
    in call order; and [registry.get(key)] is undefined exactly when there
    is none (the registry never holds an empty array). *)
Theorem registry_after_any_calls :
  ∀ (ops : list RegistryOp) (key : string),
    let s := foldl applyOp initial ops in
    handlersOf key s = registeredUnder key (sinceLastClear ops)
    ∧ (get key s = None ↔ registeredUnder key (sinceLastClear ops) = [])
    ∧ store_wf s.
Proof.
  intros ops key s.
  assert (Hlist : handlersOf key s = registeredUnder key (sinceLastClear ops))
    by apply handlersOf_foldl_applyOp.
  assert (Hinh : arrays_inhabited s).
  { apply arrays_inhabited_foldl_applyOp; [apply store_wf_initial|].
    intros k hs. unfold get. cbn. by rewrite lookup_empty. }
  split; [done|]. split; [|apply store_wf_foldl_applyOp, store_wf_initial].
  rewrite <- Hlist. unfold handlersOf. split.
  - by intros ->.
  - destruct (get key s) as [hs|] eqn:Hget; [|done].
    cbn. intros ->. by destruct (Hinh key [] Hget).
Qed.

(* --------------------------------------------------------------------- *)
(** ** Registrations under different keys *)
(* --------------------------------------------------------------------- *)

(** X3. Two registrations under different keys can be made in either
    order: every lookup gives the same afterwards. Under one key the
    order shows: the handler registered later comes later. *)
Theorem registerHook_order_matters_within_a_key_only :
  ∀ (s : Store) (k1 k2 : string) (h1 h2 : HookHandler),
    store_wf s →
    (k1 ≠ k2 →
     ∀ key, get key (registerHook k1 h1 (registerHook k2 h2 s))
            = get key (registerHook k2 h2 (registerHook k1 h1 s)))
    ∧ get k1 (registerHook k1 h1 (registerHook k1 h2 s))
      = Some (handlersOf k1 s ++ [h2; h1]).
Proof.
  intros s k1 k2 h1 h2 Hs.
  assert (Hs1 : store_wf (registerHook k1 h1 s))
    by (by apply store_wf_registerHook).
  assert (Hs2 : store_wf (registerHook k2 h2 s))
    by (by apply store_wf_registerHook).
  assert (Hs12 : store_wf (registerHook k1 h2 s))
    by (by apply store_wf_registerHook).
  split.
  - intros Hne key.
    destruct (decide (key = k1)) as [->|Hk1];
      [|destruct (decide (key = k2)) as [->|Hk2]].
    + rewrite get_registerHook_same by done.
      rewrite (get_registerHook_other k2 k1) by done.
      rewrite get_registerHook_same by done.
      unfold handlersOf. by rewrite (get_registerHook_other k2 k1) by done.
    + rewrite (get_registerHook_other k1 k2) by done.
      rewrite !get_registerHook_same by done.
      unfold handlersOf. by rewrite (get_registerHook_other k1 k2) by done.
    + by rewrite !get_registerHook_other by done.
  - rewrite get_registerHook_same by done.
    unfold handlersOf at 1. rewrite get_registerHook_same by done.
    cbn. by rewrite <- app_assoc.
Qed.

(* --------------------------------------------------------------------- *)
(** ** What a dispatch logs *)
(* --------------------------------------------------------------------- *)

Section Journal.

Context {Ext : Type}.
Variable run :
  HookHandler → HookEvent → Store → Ext → Store * Ext * Completion unit.
Variable fails : HookHandler → option Thrown.

Local Abbreviation triggerHookJ :=
  (triggerHook journal_logger (journal_run run)).

Lemma loggable_journal event :
  (∀ h s e, (run h event s e).2 = outcome fails h) →
  (∀ h raised, fails h ≠ Some (ThrownUnrenderable raised)) →
  loggable (Ext := Ext * list string) journal_logger (journal_run run) event.
Proof.
  intros Hout Hrender. split; [|done].
  intros h s e raised. unfold journal_run.
  pose proof (Hout h s e.1) as Hr.
  destruct (run h event s e.1) as [[s1 e1] r]. cbn in Hr. subst r.
  cbn. unfold outcome. pose proof (Hrender h raised) as Hh.
  destruct (fails h) as [err|]; [|done]. congruence.
Qed.

Lemma failureLines_cons entry rest :
  failureLines fails (entry :: rest) =
    match fails entry.2 with
    | Some (ThrownError message) => [expectedLine entry.1 message]
    | Some (ThrownValue rendering) => [expectedLine entry.1 rendering]
    | _ => []
    end ++ failureLines fails rest.
Proof.
  unfold failureLines. cbn.
  by destruct (fails entry.2) as [[message|rendering|raised]|].
Qed.

Lemma sequence_journal event entries s (e : Ext * list string) :
  (∀ h s e, (run h event s e).2 = outcome fails h) →
  (∀ h raised, fails h ≠ Some (ThrownUnrenderable raised)) →
  (sequence journal_logger (journal_run run) event entries s e).1.2.2 =
    e.2 ++ failureLines fails entries.
Proof.
  intros Hout Hrender.
  revert s e. induction entries as [|entry rest IH]; intros s e.
  - cbn. by rewrite app_nil_r.
  - cbn [sequence]. unfold journal_run at 1.
    rewrite failureLines_cons.
    pose proof (Hout entry.2 s e.1) as Hr.
    pose proof (Hrender entry.2) as Hh.
    destruct (run entry.2 event s e.1) as [[s1 e1] r]. cbn in Hr. subst r.
    unfold outcome. destruct (fails entry.2) as [[message|rendering|raised]|].
    + cbn. rewrite IH. cbn. by rewrite <- app_assoc.
    + cbn. rewrite IH. cbn. by rewrite <- app_assoc.
    + by destruct (Hh raised).
    + cbn. by rewrite IH.
Qed.


End Journal.

(* --------------------------------------------------------------------- *)
(** ** A dispatch does not write to the registry *)
(* --------------------------------------------------------------------- *)

(** X5. [triggerHook] itself never changes the registry: when the
    handlers leave the registry as they find it, so does the dispatch,
    whether they return or throw. *)
Theorem triggerHook_leaves_registry :
  ∀ (Ext : Type) (logger_error : string → Ext → Ext * Completion unit)
    (run : HookHandler → HookEvent → Store → Ext →
           Store * Ext * Completion unit)
    (event : HookEvent) (w : World Ext),
    (∀ h s e, (run h event s e).1.1 = s) →
    store (triggerHook logger_error run event w).1 = store w.
Proof.
  intros Ext logger_error run event w Hkeep.
  pose proof (triggerHook_sequence logger_error run event w) as Hseq.
  apply (f_equal (λ x, x.1.1)) in Hseq. cbn [fst] in Hseq.
  rewrite Hseq. by apply sequence_store.
Qed.

(* --------------------------------------------------------------------- *)
(** ** When two events share their specific key *)
(* --------------------------------------------------------------------- *)

Lemma colon_key_inj (t1 t2 a1 a2 : string) :
  mentions colon t1 = false → mentions colon t2 = false →
  t1 +:+ ":" +:+ a1 = t2 +:+ ":" +:+ a2 → t1 = t2 ∧ a1 = a2.
Proof.
  revert t2. induction t1 as [|c1 t1 IH]; intros [|c2 t2] H1 H2 Heq;
    simpl in H1, H2, Heq.
  - by simplify_eq.
  - case_decide; [done|]. injection Heq as <- _. done.
  - case_decide; [done|]. injection Heq as -> _. done.
  - repeat case_decide; try done.
    injection Heq as -> Heq.
    destruct (IH t2 H1 H2 Heq) as [-> ->]. done.
Qed.

Lemma string_app_assoc (s1 s2 s3 : string) :
  (s1 +:+ s2) +:+ s3 = s1 +:+ (s2 +:+ s3).
Proof.
  induction s1 as [|c s1 IH]; [done|].
  change (String c ((s1 +:+ s2) +:+ s3) = String c (s1 +:+ s2 +:+ s3)).
  by f_equal.
Qed.

(** X6. The specific key [type:action] does not tell where the type
    ends: the events (t:a, b) and (t, a:b) have the same specific key, so
    a handler registered for one is called for the other. When no type
    holds a colon, two events with the same specific key have the same
    type and the same action. *)
Theorem specificKey_ambiguity :
  (∀ (t a b session : string) (time : Z) (msgs : list string)
     (ctx : gmap string string),
     specificKey {| type := t +:+ ":" +:+ a; action := b;
                    sessionKey := session; timestamp := time;
                    messages := msgs; context := ctx |}
     = specificKey {| type := t; action := a +:+ ":" +:+ b;
                      sessionKey := session; timestamp := time;
                      messages := msgs; context := ctx |})
  ∧ (∀ event1 event2 : HookEvent,
       mentions colon (type event1) = false →
       mentions colon (type event2) = false →
       specificKey event1 = specificKey event2 →
       type event1 = type event2 ∧ action event1 = action event2).
Proof.
  split.
  - intros t a b session time msgs ctx. unfold specificKey. cbn.
    by rewrite string_app_assoc.
  - intros event1 event2 H1 H2. unfold specificKey. by apply colon_key_inj.
Qed.

(* --------------------------------------------------------------------- *)
(** ** One handler under both keys *)
(* --------------------------------------------------------------------- *)

(** X7. A handler registered under the specific and under the general key
    of an event is run twice by a dispatch of that event: as the last of
    the specific handlers and again as the last handler of all. The
    dispatch does to the registry and to the outside world what running
    that list in order does, and ends as that does; when every failure
    can be logged, it returns normally after the call of each entry of
    the list. *)
Theorem handler_under_both_keys_called_twice :
  ∀ (Ext : Type) (logger_error : string → Ext → Ext * Completion unit)
    (run : HookHandler → HookEvent → Store → Ext →
           Store * Ext * Completion unit)
    (s : Store) (event : HookEvent) (h : HookHandler) (e : Ext),
    store_wf s →
    let specific := type event +:+ ":" +:+ action event in
    let both := registerHook (type event) h (registerHook specific h s) in
    let entries :=
      map (pair specific) (handlersOf specific s ++ [h])
      ++ map (pair (type event)) (handlersOf (type event) s ++ [h]) in
    let finished :=
      triggerHook logger_error run event
        {| store := both; env := e; invoked := [] |} in
    (store finished.1, env finished.1, finished.2) =
      sequence logger_error run event entries both e
    ∧ (loggable logger_error run event →
       finished.2 = Returned tt ∧ invoked finished.1 = entries).
Proof.
  intros Ext logger_error run s event h e Hs specific both entries finished.
  pose proof (specificKey_neq_generalKey event) as Hkeys.
  assert (Hs1 : store_wf (registerHook (specificKey event) h s))
    by (by apply store_wf_registerHook).
  assert (Hentries : resolve event both = entries).
  { rewrite resolve_spec. unfold both, entries, specific.
    change (type event +:+ ":" +:+ action event) with (specificKey event).
    change (type event) with (generalKey event).
    rewrite !handlersOf_registerHook by done.
    rewrite !decide_True by done.
    rewrite (decide_False (P := specificKey event = generalKey event))
      by done.
    rewrite (decide_False (P := generalKey event = specificKey event))
      by (by intros Heq; apply Hkeys).
    rewrite ?decide_True by done. by rewrite ?app_nil_r. }
  subst finished. split.
  - rewrite triggerHook_sequence. cbn [store env]. by rewrite Hentries.
  - intros Hlog.
    destruct (triggerHook_loggable logger_error run event
                {| store := both; env := e; invoked := [] |} Hlog)
      as [Hr Hcalls].
    split; [done|]. rewrite Hcalls. cbn [store invoked app]. done.
Qed.

(* --------------------------------------------------------------------- *)
(** ** From the calls made to the handlers called *)
(* --------------------------------------------------------------------- *)

(** X22. End to end: after any sequence of [registerHook] and
    [clearHooks] calls, the dispatch of the event made by
    [createHookEvent(type, action, sessionKey, context)] does to the
    registry and to the outside world what running, in order, the handlers
    registered since the last clear under [type:action], in call order,
    and then those registered under [type] does, and ends as that does;
    when every failure can be logged, it returns normally after the call
    of each of them. The session key, the time and the context of the
    event play no part in the choice of the handlers. *)
Theorem createHookEvent_dispatch_end_to_end :
  ∀ (Ext : Type) (logger_error : string → Ext → Ext * Completion unit)
    (run : HookHandler → HookEvent → Store → Ext →
           Store * Ext * Completion unit)
    (ops : list RegistryOp) (now : Z) (type action session : string)
    (ctx : option (gmap string string)) (e : Ext),
    let event := createHookEvent now type action session ctx in
    let s := foldl applyOp initial ops in
    let entries :=
      map (pair (type +:+ ":" +:+ action))
          (registeredUnder (type +:+ ":" +:+ action) (sinceLastClear ops))
      ++ map (pair type) (registeredUnder type (sinceLastClear ops)) in
    let finished :=
      triggerHook logger_error run event
        {| store := s; env := e; invoked := [] |} in
    (store finished.1, env finished.1, finished.2) =
      sequence logger_error run event entries s e
    ∧ (loggable logger_error run event →
       finished.2 = Returned tt ∧ invoked finished.1 = entries).
Proof.
  intros Ext logger_error run ops now type action session ctx e
    event s entries finished.
  assert (Hentries : resolve event s = entries).
  { rewrite resolve_spec. unfold s.
    by rewrite !handlersOf_foldl_applyOp. }
  subst finished. split.
  - rewrite triggerHook_sequence. cbn [store env]. by rewrite Hentries.
  - intros Hlog.
    destruct (triggerHook_loggable logger_error run event
                {| store := s; env := e; invoked := [] |} Hlog)
      as [Hr Hcalls].
    split; [done|]. rewrite Hcalls. cbn [store invoked app]. done.
Qed.

(* --------------------------------------------------------------------- *)
(** ** What a dispatch does, and where it stops *)
(* --------------------------------------------------------------------- *)

(** X24. Whatever the registry, the event and the handlers, a dispatch
    does to the registry and to the outside world what running in order
    the handlers of the key [type:action] and then those of the key
    [type] does, each on what the one before it left and with a log line
    after each that throws, and it ends as that does. When every failure
    can be logged, it returns normally after the call of each of them.
    When the first of them throws a value for which the log line cannot
    be computed, the dispatch ends there with what that computation
    throws: no other handler is called and nothing is logged. *)
Theorem triggerHook_runs_resolved_list_in_order :
  ∀ (Ext : Type) (logger_error : string → Ext → Ext * Completion unit)
    (run : HookHandler → HookEvent → Store → Ext →
           Store * Ext * Completion unit)
    (event : HookEvent) (w : World Ext),
    let entries :=
      map (pair (type event +:+ ":" +:+ action event))
          (handlersOf (type event +:+ ":" +:+ action event) (store w))
      ++ map (pair (type event)) (handlersOf (type event) (store w)) in
    let finished := triggerHook logger_error run event w in
    (store finished.1, env finished.1, finished.2) =
      sequence logger_error run event entries (store w) (env w)
    ∧ (loggable logger_error run event →
       finished.2 = Returned tt
       ∧ invoked finished.1 = invoked w ++ entries)
    ∧ (∀ entry rest s1 e1 raised,
         entries = entry :: rest →
         run entry.2 event (store w) (env w) =
           (s1, e1, Threw (ThrownUnrenderable raised)) →
         finished =
           ({| store := s1; env := e1; invoked := invoked w ++ [entry] |},
            Threw raised)).
Proof.
  intros Ext logger_error run event w entries finished.
  assert (Hentries : resolve event (store w) = entries) by apply resolve_spec.
  subst finished. split; [|split].
  - by rewrite triggerHook_sequence, Hentries.
  - intros Hlog. rewrite <- Hentries. by apply triggerHook_loggable.
  - intros [key h] rest s1 e1 raised Hlist Hrun.
    rewrite triggerHook_dispatch, Hentries, Hlist.
    cbn [dispatch]. unfold bind at 1, attempt, try_catch, invoke.
    cbn [snd] in Hrun. rewrite Hrun. done.
Qed.

(* --------------------------------------------------------------------- *)
(** ** The theorems at sample inputs *)
(* --------------------------------------------------------------------- *)

(** The registry of the samples cleared, then handler 6 registered for
    "command": it is alone there, and "command:new" stays empty. *)
Lemma clearHooks_forgets_everything_witness :
  let s := Samples.bothRegistered in
  "command:new" ≠ "command"
  ∧ get "command" (clearHooks s) = None
  ∧ get "command" (registerHook "command" 6%positive (clearHooks s))
    = Some [6%positive]
  ∧ get "command:new" (registerHook "command" 6%positive (clearHooks s))
    = None.
Proof.
  intros s.
  assert (Hne : "command:new" ≠ "command") by (intros Heq; discriminate Heq).
  destruct (clearHooks_forgets_everything s) as (Hnone & _ & Hnext).
  destruct (Hnext "command" 6%positive) as [Halone Hothers].
  split; [exact Hne|]. split; [exact (Hnone "command")|].
  split; [exact Halone|exact (Hothers "command:new" Hne)].
Defined.

(** Register, register, clear, register: only the last one is there. *)
Lemma registry_after_any_calls_witness :
  let ops := [OpRegister "command" 1%positive;
              OpRegister "command:new" 2%positive;
              OpClear;
              OpRegister "command" 3%positive] in
  let s := foldl applyOp initial ops in
  registeredUnder "command:new" (sinceLastClear ops) = []
  ∧ handlersOf "command" s = [3%positive]
  ∧ get "command:new" s = None.
Proof.
  intros ops s.
  destruct (registry_after_any_calls ops "command") as (Hcommand & _ & _).
  destruct (registry_after_any_calls ops "command:new") as (_ & Hnew & _).
  split; [reflexivity|]. split; [exact Hcommand|].
  exact (proj2 Hnew eq_refl).
Defined.

(** "session" and "command" registered in either order over a registry
    that already has handlers. *)
Lemma registerHook_order_matters_within_a_key_only_witness :
  let s := Samples.bothRegistered in
  (store_wf s ∧ "session" ≠ "command")
  ∧ get "command" (registerHook "session" 8%positive
                     (registerHook "command" 9%positive s))
    = get "command" (registerHook "command" 9%positive
                       (registerHook "session" 8%positive s))
  ∧ get "command" (registerHook "command" 8%positive
                     (registerHook "command" 9%positive s))
    = Some [1%positive; 9%positive; 8%positive].
Proof.
  intros s.
  assert (Hne : "session" ≠ "command") by (intros Heq; discriminate Heq).
  pose proof (registerHook_order_matters_within_a_key_only s
    "session" "command" 8%positive 9%positive store_wf_bothRegistered)
    as [Hswap _].
  pose proof (registerHook_order_matters_within_a_key_only s
    "command" "command" 8%positive 9%positive store_wf_bothRegistered)
    as [_ Hsame].
  split; [split; [apply store_wf_bothRegistered|exact Hne]|].
  split; [exact (Hswap Hne "command")|exact Hsame].
Defined.


(** The counting handlers leave the registry alone; so does the
    dispatch. *)
Lemma triggerHook_leaves_registry_witness :
  let w : World (nat * list string) :=
    {| store := Cases.threeRegistered; env := (0, []); invoked := [] |} in
  (∀ h s e, (journal_run Cases.counting h Samples.commandNew s e).1.1 = s)
  ∧ store (triggerHook journal_logger (journal_run Cases.counting)
             Samples.commandNew w).1 = Cases.threeRegistered.
Proof.
  intros w.
  assert (Hkeep : ∀ h s e,
    (journal_run Cases.counting h Samples.commandNew s e).1.1 = s)
    by reflexivity.
  split; [exact Hkeep|].
  exact (triggerHook_leaves_registry _ journal_logger
    (journal_run Cases.counting) Samples.commandNew w Hkeep).
Defined.

(** Two events of the colon-free types "command" and "session". *)
Lemma specificKey_ambiguity_witness :
  let event1 := Samples.commandNew in
  let event2 := createHookEvent 7 "command" "new" "agent:other:main" None in
  (mentions colon (type event1) = false
   ∧ mentions colon (type event2) = false
   ∧ specificKey event1 = specificKey event2)
  ∧ type event1 = type event2 ∧ action event1 = action event2.
Proof.
  intros event1 event2.
  split; [by repeat split|].
  exact (proj2 specificKey_ambiguity event1 event2 eq_refl eq_refl eq_refl).
Defined.

Lemma loggable_behaviour event :
  loggable Samples.write_line Samples.behaviour event.
Proof.
  split; [|done]. intros h s e raised. unfold Samples.behaviour.
  by repeat case_decide.
Qed.

(** Handler 5 added under "command:new" and under "command". *)
Lemma handler_under_both_keys_called_twice_witness :
  let s := Samples.bothRegistered in
  let both := registerHook "command" 5%positive
                (registerHook "command:new" 5%positive s) in
  let finished :=
    triggerHook Samples.write_line Samples.behaviour
      Samples.commandNew (Samples.start both) in
  (store_wf s
   ∧ loggable Samples.write_line Samples.behaviour Samples.commandNew)
  ∧ finished.2 = Returned tt
  ∧ invoked finished.1
    = [("command:new", 2%positive); ("command:new", 5%positive);
       ("command", 1%positive); ("command", 5%positive)].
Proof.
  intros s both finished.
  split; [split; [apply store_wf_bothRegistered|apply loggable_behaviour]|].
  exact (proj2 (handler_under_both_keys_called_twice _ Samples.write_line
    Samples.behaviour s Samples.commandNew 5%positive []
    store_wf_bothRegistered) (loggable_behaviour Samples.commandNew)).
Defined.

(** The registry of the samples with handlers whose failures are logged,
    and with a handler 2 that throws the value of [Object.create(null)]. *)
Lemma triggerHook_runs_resolved_list_in_order_witness :
  let w := Samples.start Samples.bothRegistered in
  let logged :=
    triggerHook Samples.write_line Samples.behaviour Samples.commandNew w in
  let cut :=
    triggerHook Samples.write_line Samples.opaque Samples.commandNew w in
  (loggable Samples.write_line Samples.behaviour Samples.commandNew
   ∧ Samples.opaque 2%positive Samples.commandNew (store w) (env w) =
       (store w, ["H2 called"], Threw (ThrownUnrenderable Samples.typeError)))
  ∧ (logged.2 = Returned tt
     ∧ invoked logged.1 = [("command:new", 2%positive); ("command", 1%positive)])
  ∧ cut = ({| store := store w; env := ["H2 called"];
              invoked := [("command:new", 2%positive)] |},
           Threw Samples.typeError).
Proof.
  intros w logged cut.
  split; [split; [apply loggable_behaviour|reflexivity]|]. split.
  - exact (proj1 (proj2 (triggerHook_runs_resolved_list_in_order _
      Samples.write_line Samples.behaviour Samples.commandNew w))
      (loggable_behaviour Samples.commandNew)).
  - exact (proj2 (proj2 (triggerHook_runs_resolved_list_in_order _
      Samples.write_line Samples.opaque Samples.commandNew w))
      ("command:new", 2%positive) [("command", 1%positive)]
      (store w) ["H2 called"] Samples.typeError eq_refl eq_refl).
Defined.

(** Register, register, clear, register, register; then the event made
    for [/new]. *)
Lemma createHookEvent_dispatch_end_to_end_witness :
  let ops := [OpRegister "command" 1%positive;
              OpRegister "command:new" 2%positive;
              OpClear;
              OpRegister "command" 3%positive;
              OpRegister "command:new" 2%positive] in
  let finished :=
    triggerHook Samples.write_line Samples.behaviour
      (createHookEvent 12 "command" "new" "agent:main:main" None)
      (Samples.start (foldl applyOp initial ops)) in
  loggable Samples.write_line Samples.behaviour
    (createHookEvent 12 "command" "new" "agent:main:main" None)
  ∧ finished.2 = Returned tt
  ∧ invoked finished.1 = [("command:new", 2%positive); ("command", 3%positive)].
Proof.
  intros ops finished. split; [apply loggable_behaviour|].
  exact (proj2 (createHookEvent_dispatch_end_to_end _ Samples.write_line
    Samples.behaviour ops 12 "command" "new" "agent:main:main" None [])
    (loggable_behaviour _)).
Defined.

End RegistryFacts.

(* ===================================================================== *)
(** * Properties of the navigation paths *)
(* ===================================================================== *)

Module NavigationFacts.
Import JS Navigation.

(* --------------------------------------------------------------------- *)
(** ** String operations *)
(* --------------------------------------------------------------------- *)

Lemma startsWith_app (s search : list N) :
  startsWith (search ++ s) search = true.
Proof.
  induction search as [|c search IH]; [done|].
  cbn. by rewrite bool_decide_eq_true_2.
Qed.

Lemma startsWith_app_both (b s search : list N) :
  startsWith (b ++ s) (b ++ search) = startsWith s search.
Proof.
  induction b as [|c b IH]; [done|].
  cbn. by rewrite bool_decide_eq_true_2.
Qed.

Lemma endsWith_app (s search : list N) :
  endsWith (s ++ search) search = true.
Proof. unfold endsWith. rewrite reverse_app. apply startsWith_app. Qed.

Lemma startsWith_slash (s : list N) :
  startsWith s (u "/") = true ↔ ∃ rest, s = 47%N :: rest.
Proof.
  destruct s as [|c rest]; cbn.
  - split; [done|]. by intros [? ?].
  - rewrite andb_true_r, bool_decide_eq_true. split.
    + intros <-. by eexists.
    + by intros [? [= -> _]].
Qed.

Lemma dropLast_cons (c d : N) (s : list N) :
  dropLast (c :: d :: s) = c :: dropLast (d :: s).
Proof.
  unfold dropLast. cbn [length].
  by replace (S (S (length s)) - 1) with (S (S (length s) - 1)) by lia.
Qed.

Lemma asciiLower_slash (c : N) : asciiLower c = 47%N → c = 47%N.
Proof.
  unfold asciiLower.
  destruct (65 <=? c)%N eqn:H1, (c <=? 90)%N eqn:H2; cbn; try done.
  apply N.leb_le in H1. lia.
Qed.

Lemma asciiLower_below (c k : N) :
  asciiLower c = k → (k < 128)%N → (c < 128)%N.
Proof.
  unfold asciiLower.
  destruct ((65 <=? c)%N && (c <=? 90)%N); lia.
Qed.

Lemma asciiLower_letter (c k : N) :
  asciiLower c = k → (97 ≤ k)%N → (k ≤ 122)%N → c = k ∨ c = (k - 32)%N.
Proof.
  unfold asciiLower.
  destruct ((65 <=? c)%N && (c <=? 90)%N); lia.
Qed.

Lemma isAscii_lower_fmap (s t : list N) :
  asciiLower <$> s = t → isAscii t → isAscii s.
Proof.
  intros <-. unfold isAscii. rewrite Forall_fmap. intros H.
  eapply Forall_impl; [exact H|].
  intros c Hc. cbn in Hc. by eapply asciiLower_below.
Qed.

(* --------------------------------------------------------------------- *)
(** ** Paths begin with a slash *)
(* --------------------------------------------------------------------- *)

Lemma with_slash_starts (s : list N) :
  startsWith
    (if negb (startsWith s (u "/")) then u "/" ++ s else s) (u "/") = true.
Proof. by destruct (startsWith s (u "/")) eqn:H. Qed.

Lemma dropLast_keeps_slash (s : list N) :
  startsWith s (u "/") = true → 1 < length s →
  startsWith (dropLast s) (u "/") = true.
Proof.
  intros [rest ->]%startsWith_slash Hlen.
  destruct rest as [|d rest]; [cbn in Hlen; lia|].
  by rewrite dropLast_cons.
Qed.

(** X8. Every path these functions produce begins with a slash:
    [normalizePath] always does, [normalizeBasePath] gives either the
    empty string or a string that does, and so [pathForTab] always
    does. *)
Theorem paths_begin_with_slash :
  (∀ p, startsWith (normalizePath p) (u "/") = true)
  ∧ (∀ basePath,
       normalizeBasePath basePath = []
       ∨ startsWith (normalizeBasePath basePath) (u "/") = true)
  ∧ (∀ tab basePath, startsWith (pathForTab tab basePath) (u "/") = true).
Proof.
  assert (Hbase : ∀ basePath,
    normalizeBasePath basePath = []
    ∨ startsWith (normalizeBasePath basePath) (u "/") = true).
  { intros [|c0 r0]; [by left|]. unfold normalizeBasePath.
    set (base := if negb (startsWith (trim (c0 :: r0)) (u "/"))
                 then u "/" ++ trim (c0 :: r0) else trim (c0 :: r0)).
    assert (Hstart : startsWith base (u "/") = true)
      by apply with_slash_starts.
    case_bool_decide as Hroot; [by left|]. right.
    destruct (endsWith base (u "/")); [|done].
    apply dropLast_keeps_slash; [done|].
    apply startsWith_slash in Hstart as [rest Hrest].
    rewrite Hrest in *. destruct rest; [done|]. cbn. lia. }
  split; [|split; [done|]].
  - intros [|c0 r0]; [done|]. unfold normalizePath.
    set (n := if negb (startsWith (trim (c0 :: r0)) (u "/"))
              then u "/" ++ trim (c0 :: r0) else trim (c0 :: r0)).
    assert (Hstart : startsWith n (u "/") = true) by apply with_slash_starts.
    destruct (1 <? length n)%nat eqn:Hlen; cbn [andb]; [|done].
    destruct (endsWith n (u "/")); [|done].
    apply dropLast_keeps_slash; [done|]. by apply Nat.ltb_lt.
  - intros tab basePath. unfold pathForTab.
    destruct (Hbase (default [] basePath)) as [->|Hstart].
    + by destruct tab.
    + apply startsWith_slash in Hstart as [rest ->]. done.
Qed.

(* --------------------------------------------------------------------- *)
(** ** From a path back to its tab *)
(* --------------------------------------------------------------------- *)

Lemma trimStart_head (c : N) (s : list N) :
  isWhiteSpace c = false → trimStart (c :: s) = c :: s.
Proof. intros Hc. cbn. by rewrite Hc. Qed.

Lemma trimStart_app (a b : list N) (c : N) :
  isWhiteSpace c = false →
  trimStart (a ++ c :: b) = trimStart a ++ c :: b.
Proof.
  intros Hc. induction a as [|d a IH]; cbn.
  - by rewrite Hc.
  - by destruct (isWhiteSpace d).
Qed.

Lemma trimEnd_last (s : list N) (c : N) :
  isWhiteSpace c = false → trimEnd (s ++ [c]) = s ++ [c].
Proof.
  intros Hc. unfold trimEnd. rewrite reverse_app, reverse_singleton.
  change ([c] ++ reverse s) with (c :: reverse s).
  rewrite trimStart_head by done.
  by rewrite reverse_cons, reverse_involutive.
Qed.

Lemma isAscii_trimStart (s : list N) : isAscii s → isAscii (trimStart s).
Proof.
  unfold isAscii. induction s as [|c s IH]; [done|].
  intros Hs. cbn. destruct (isWhiteSpace c); [|done].
  apply IH. by inversion Hs.
Qed.

Lemma endsWith_last (s : list N) (c d : N) :
  c ≠ d → endsWith (s ++ [c]) [d] = false.
Proof.
  intros Hne. unfold endsWith. rewrite reverse_app, !reverse_singleton.
  change ([c] ++ reverse s) with (c :: reverse s). cbn [startsWith].
  rewrite bool_decide_eq_false_2; [done|]. congruence.
Qed.

Lemma letter_not_whiteSpace (c : N) :
  (65 ≤ c)%N → (c ≤ 122)%N → isWhiteSpace c = false.
Proof.
  intros H1 H2. apply bool_decide_eq_false_2. unfold whiteSpaceUnits.
  rewrite !elem_of_cons, elem_of_nil. lia.
Qed.

(** [normalizePath] leaves alone a path that begins with a slash and ends
    with a letter. *)
Lemma normalizePath_slash_to_letter (q : list N) (c : N) :
  (65 ≤ c)%N → (c ≤ 122)%N →
  normalizePath (47%N :: q ++ [c]) = 47%N :: q ++ [c].
Proof.
  intros H1 H2. unfold normalizePath.
  assert (Htrim : trim (47%N :: q ++ [c]) = 47%N :: q ++ [c]).
  { unfold trim. rewrite trimStart_head by done.
    change (47%N :: q ++ [c]) with ((47%N :: q) ++ [c]).
    by rewrite trimEnd_last by (by apply letter_not_whiteSpace). }
  rewrite Htrim. cbn [startsWith u negb].
  change (startsWith (47%N :: q ++ [c]) (u "/")) with true. cbn [negb].
  change (47%N :: q ++ [c]) with ((47%N :: q) ++ [c]).
  change (u "/") with [47%N].
  rewrite endsWith_last by lia. by rewrite andb_false_r.
Qed.

Lemma TAB_PATHS_shape (tab : Tab) :
  ∃ m z, TAB_PATHS tab = 47%N :: m ++ [z] ∧ (97 ≤ z)%N ∧ (z ≤ 122)%N.
Proof.
  destruct tab.
  - exists (u "cha"), 116%N. by vm_compute.
  - exists (u "plugin"), 115%N. by vm_compute.
  - exists (u "skill"), 115%N. by vm_compute.
  - exists (u "confi"), 103%N. by vm_compute.
  - exists (u "log"), 115%N. by vm_compute.
Qed.

Lemma normalizePath_of_tab_path (tab : Tab) (p : list N) :
  asciiLower <$> p = TAB_PATHS tab → normalizePath p = p.
Proof.
  destruct (TAB_PATHS_shape tab) as (m & z & -> & Hz1 & Hz2). intros Hp.
  destruct p as [|a p]; [done|]. rewrite fmap_cons in Hp.
  injection Hp as Ha Hp. apply asciiLower_slash in Ha as ->.
  apply fmap_app_inv in Hp as (p1 & p2 & _ & Hlast & ->).
  destruct p2 as [|c [|? ?]]; try done. injection Hlast as Hc.
  destruct (asciiLower_letter c z (eq_sym Hc) Hz1 Hz2) as [-> | ->];
    apply normalizePath_slash_to_letter; lia.
Qed.

Section Lookup.

Variable toLowerCase : list N → list N.

(** On a string of code units below 128, [toLowerCase] turns the letters
    A to Z into a to z and leaves the rest. *)
Hypothesis toLowerCase_ascii :
  ∀ s, isAscii s → toLowerCase s = asciiLower <$> s.

Local Abbreviation tabFromPath := (tabFromPath toLowerCase).

(** The base path in front of a path is taken off before the path is
    looked at. *)
Lemma tabFromPath_strips_base basePath (q : list N) :
  tabFromPath (normalizeBasePath (default [] basePath) ++ 47%N :: q) basePath
    = tabFromPath (47%N :: q) None.
Proof.
  unfold Navigation.tabFromPath at 1 2.
  cbn [default]. change (normalizeBasePath []) with (@nil N).
  destruct (normalizeBasePath (default [] basePath)) as [|c base] eqn:Hbase;
    [done|].
  assert (Hinner :
    (if bool_decide ((c :: base) ++ 47%N :: q = c :: base) then u "/"
     else if startsWith ((c :: base) ++ 47%N :: q) ((c :: base) ++ u "/")
          then sliceFrom (length (c :: base)) ((c :: base) ++ 47%N :: q)
          else (c :: base) ++ 47%N :: q) = 47%N :: q).
  { rewrite bool_decide_eq_false_2.
    - change (u "/") with [47%N].
      rewrite startsWith_app_both. cbn [startsWith].
      rewrite bool_decide_eq_true_2 by done. cbn [andb].
      unfold sliceFrom. by rewrite drop_app_length.
    - intros Heq. apply (f_equal length) in Heq.
      rewrite length_app in Heq. cbn in Heq. lia. }
  cbn [app] in *. by rewrite !Hinner.
Qed.

(** A path that is the path of a tab up to the case of its letters
    selects that tab. *)
Lemma tabFromPath_known (tab : Tab) (p : list N) :
  asciiLower <$> p = TAB_PATHS tab → tabFromPath p None = Some tab.
Proof.
  intros Hp.
  assert (Hascii : isAscii p).
  { apply (isAscii_lower_fmap _ _ Hp).
    destruct tab; vm_compute; repeat constructor. }
  assert (Hlower : toLowerCase p = TAB_PATHS tab)
    by (by rewrite toLowerCase_ascii).
  assert (Hnorm : normalizePath p = p)
    by (by eapply normalizePath_of_tab_path).
  unfold Navigation.tabFromPath. cbn [default].
  change (normalizeBasePath []) with (@nil N).
  assert (Hp' : match p with [] => u "/" | _ :: _ => p end = p).
  { destruct p; [|done]. by destruct tab. }
  rewrite Hp', Hnorm, Hlower. by destruct tab.
Qed.

(** X9. A path made by [pathForTab] is read back by [tabFromPath] as the
    tab it was made for, whatever the base path, as long as both are
    given the same one. *)
Theorem tabFromPath_pathForTab :
  ∀ (tab : Tab) (basePath : option (list N)),
    tabFromPath (pathForTab tab basePath) basePath = Some tab.
Proof.
  intros tab basePath.
  assert (Hpath : pathForTab tab basePath =
                    normalizeBasePath (default [] basePath) ++ TAB_PATHS tab).
  { unfold pathForTab. by destruct (normalizeBasePath (default [] basePath)). }
  assert (Hslash : ∃ q, TAB_PATHS tab = 47%N :: q)
    by (destruct tab; by eexists).
  destruct Hslash as [q Hq].
  rewrite Hpath, Hq, tabFromPath_strips_base, <- Hq.
  apply tabFromPath_known. by destruct tab.
Qed.

(** X10. The tab is found whatever the case of the letters of its path:
    a path that lower-cases to the path of a tab selects that tab, also
    behind a base path; the base path itself has to be there as
    normalized. *)
Theorem tabFromPath_ignores_case :
  ∀ (tab : Tab) (basePath : option (list N)) (p : list N),
    asciiLower <$> p = TAB_PATHS tab →
    tabFromPath (normalizeBasePath (default [] basePath) ++ p) basePath
      = Some tab.
Proof.
  intros tab basePath p Hp.
  assert (Hslash : ∃ q, p = 47%N :: q).
  { destruct p as [|c q]; [by destruct tab|]. exists q. f_equal.
    apply asciiLower_slash. destruct tab; by injection Hp. }
  destruct Hslash as [q ->].
  rewrite tabFromPath_strips_base. by apply tabFromPath_known.
Qed.

(** What is left of [tabFromPath] once the path has been normalized and
    lower-cased. *)
Lemma tabFromPath_root (pathname : list N) basePath :
  (let base := normalizeBasePath (default [] basePath) in
   let p := match pathname with [] => u "/" | _ => pathname end in
   match base with
   | [] => p
   | _ => if bool_decide (p = base) then u "/"
          else if startsWith p (base ++ u "/")
               then sliceFrom (length base) p else p
   end = u "/") →
  tabFromPath pathname basePath = Some chat.
Proof.
  cbv zeta. intros Hp. unfold Navigation.tabFromPath. cbv zeta.
  rewrite !Hp.
  assert (Hlower : toLowerCase (normalizePath (u "/")) = u "/").
  { change (normalizePath (u "/")) with (u "/").
    rewrite toLowerCase_ascii; [done|]. vm_compute. repeat constructor. }
  by rewrite !Hlower.
Qed.

(** X11. The chat tab is the default: the empty path, the root path and
    the base path alone all select it, whatever the base path is. *)
Theorem tabFromPath_defaults_to_chat :
  ∀ (basePath : option (list N)),
    tabFromPath [] basePath = Some chat
    ∧ tabFromPath (u "/") basePath = Some chat
    ∧ tabFromPath (normalizeBasePath (default [] basePath)) basePath
      = Some chat.
Proof.
  intros basePath.
  assert (Hroot : ∀ base : list N,
    match base with
    | [] => u "/"
    | _ => if bool_decide (u "/" = base) then u "/"
           else if startsWith (u "/") (base ++ u "/")
                then sliceFrom (length base) (u "/") else u "/"
    end = u "/").
  { intros [|c base]; [done|]. case_bool_decide; [done|].
    change (u "/") with [47%N]. cbn [app startsWith].
    destruct base as [|d base]; cbn [app startsWith];
      by rewrite ?andb_false_r. }
  split; [|split].
  - apply tabFromPath_root. cbv zeta. apply Hroot.
  - apply tabFromPath_root. cbv zeta. apply Hroot.
  - apply tabFromPath_root. cbv zeta.
    destruct (normalizeBasePath (default [] basePath)) as [|c base]; [done|].
    by rewrite bool_decide_eq_true_2.
Qed.

(** X12. With no base path, every path that ends in [/index.html], in
    any case of these letters, selects the chat tab, whatever comes
    before: also [/plugins/index.html] does. *)
Theorem tabFromPath_index_html :
  ∀ (before file : list N),
    isAscii before →
    asciiLower <$> file = u "/index.html" →
    tabFromPath (before ++ file) None = Some chat.
Proof.
  intros before file Hbefore Hfile.
  assert (Hshape : ∃ mid c, file = 47%N :: mid ++ [c]
                            ∧ (65 ≤ c)%N ∧ (c ≤ 122)%N).
  { assert (Hidx : u "/index.html" =
              47%N :: [105; 110; 100; 101; 120; 46; 104; 116; 109]%N
                ++ [108%N]) by reflexivity.
    rewrite Hidx in Hfile. clear Hidx.
    destruct file as [|a file]; [done|]. rewrite fmap_cons in Hfile.
    injection Hfile as Ha Hrest. apply asciiLower_slash in Ha as ->.
    apply (fmap_app_inv asciiLower file
             [105; 110; 100; 101; 120; 46; 104; 116; 109]%N [108%N])
      in Hrest as (mid & last & _ & Hlast & ->).
    destruct last as [|c [|? ?]]; try done. injection Hlast as Hc.
    exists mid, c. split; [done|].
    destruct (asciiLower_letter c 108%N (eq_sym Hc)) as [-> | ->]; lia. }
  destruct Hshape as (mid & c & Hshape & Hc1 & Hc2).
  assert (Hnorm : ∃ w, normalizePath (before ++ file) = w ++ file ∧ isAscii w).
  { rewrite Hshape.
    assert (Htrim : trim (before ++ 47%N :: mid ++ [c])
                    = trimStart before ++ 47%N :: mid ++ [c]).
    { unfold trim. rewrite trimStart_app by done.
      change (trimStart before ++ 47%N :: mid ++ [c])
        with (trimStart before ++ (47%N :: mid) ++ [c]).
      rewrite app_assoc.
      by rewrite trimEnd_last by (by apply letter_not_whiteSpace). }
    assert (Hbody : normalizePath (before ++ 47%N :: mid ++ [c]) =
      let normalized := trim (before ++ 47%N :: mid ++ [c]) in
      let normalized :=
        if negb (startsWith normalized (u "/")) then u "/" ++ normalized
        else normalized in
      if (1 <? length normalized)%nat && endsWith normalized (u "/")
      then dropLast normalized else normalized)
      by (by destruct before).
    rewrite Hbody. cbv zeta. rewrite Htrim.
    set (t := trimStart before ++ 47%N :: mid ++ [c]).
    assert (Hends : ∀ x, endsWith (x ++ t) (u "/") = false).
    { intros x. unfold t.
      change (x ++ trimStart before ++ 47%N :: mid ++ [c])
        with (x ++ trimStart before ++ (47%N :: mid) ++ [c]).
      rewrite !app_assoc. change (u "/") with [47%N].
      apply endsWith_last. lia. }
    destruct (startsWith t (u "/")); cbn [negb].
    - exists (trimStart before).
      pose proof (Hends []) as Hends0. change ([] ++ t) with t in Hends0.
      rewrite Hends0, andb_false_r.
      split; [done|]. by apply isAscii_trimStart.
    - exists (u "/" ++ trimStart before).
      rewrite (Hends (u "/")), andb_false_r.
      split; [by rewrite <- app_assoc|].
      apply Forall_app. split; [vm_compute; repeat constructor|].
      by apply isAscii_trimStart. }
  destruct Hnorm as (w & Hnorm & Hw).
  unfold Navigation.tabFromPath. cbn [default].
  change (normalizeBasePath []) with (@nil N). cbv zeta.
  assert (Hp : match before ++ file with [] => u "/" | _ :: _ => before ++ file
               end = before ++ file).
  { destruct before; [|done]. by rewrite Hshape. }
  rewrite !Hp, !Hnorm.
  assert (Hlower : toLowerCase (w ++ file)
                   = (asciiLower <$> w) ++ u "/index.html").
  { rewrite toLowerCase_ascii.
    - by rewrite fmap_app, Hfile.
    - apply Forall_app. split; [done|].
      apply (isAscii_lower_fmap _ _ Hfile). vm_compute. repeat constructor. }
  rewrite !Hlower, !endsWith_app. done.
Qed.

End Lookup.

(* --------------------------------------------------------------------- *)
(** ** The theorems at sample inputs *)
(* --------------------------------------------------------------------- *)

Lemma lowerAscii_ascii :
  ∀ s, isAscii s → Cases.lowerAscii s = asciiLower <$> s.
Proof. reflexivity. Qed.

(** The logs tab behind the base path "ui/". *)
Lemma tabFromPath_pathForTab_witness :
  (∀ s, isAscii s → Cases.lowerAscii s = asciiLower <$> s)
  ∧ pathForTab logs (Some (u "ui/")) = u "/ui/logs"
  ∧ tabFromPath Cases.lowerAscii (u "/ui/logs") (Some (u "ui/")) = Some logs.
Proof.
  split; [exact lowerAscii_ascii|]. split; [reflexivity|].
  exact (tabFromPath_pathForTab Cases.lowerAscii lowerAscii_ascii
    logs (Some (u "ui/"))).
Defined.

(** "/Plugins" behind the base path "/app". *)
Lemma tabFromPath_ignores_case_witness :
  ((∀ s, isAscii s → Cases.lowerAscii s = asciiLower <$> s)
   ∧ asciiLower <$> u "/Plugins" = TAB_PATHS plugins)
  ∧ tabFromPath Cases.lowerAscii (u "/app/Plugins") (Some (u "/app"))
    = Some plugins.
Proof.
  split; [split; [exact lowerAscii_ascii|reflexivity]|].
  exact (tabFromPath_ignores_case Cases.lowerAscii lowerAscii_ascii
    plugins (Some (u "/app")) (u "/Plugins") eq_refl).
Defined.

(** The base path "/app/" alone. *)
Lemma tabFromPath_defaults_to_chat_witness :
  (∀ s, isAscii s → Cases.lowerAscii s = asciiLower <$> s)
  ∧ tabFromPath Cases.lowerAscii [] (Some (u "/app/")) = Some chat
  ∧ tabFromPath Cases.lowerAscii (u "/") (Some (u "/app/")) = Some chat
  ∧ tabFromPath Cases.lowerAscii (u "/app") (Some (u "/app/")) = Some chat.
Proof.
  split; [exact lowerAscii_ascii|].
  exact (tabFromPath_defaults_to_chat Cases.lowerAscii lowerAscii_ascii
    (Some (u "/app/"))).
Defined.

(** "/plugins/Index.HTML". *)
Lemma tabFromPath_index_html_witness :
  ((∀ s, isAscii s → Cases.lowerAscii s = asciiLower <$> s)
   ∧ isAscii (u "/plugins")
   ∧ asciiLower <$> u "/Index.HTML" = u "/index.html")
  ∧ tabFromPath Cases.lowerAscii (u "/plugins/Index.HTML") None = Some chat.
Proof.
  assert (Hascii : isAscii (u "/plugins"))
    by (vm_compute; repeat constructor).
  split; [split; [exact lowerAscii_ascii|split; [exact Hascii|reflexivity]]|].
  exact (tabFromPath_index_html Cases.lowerAscii lowerAscii_ascii
    (u "/plugins") (u "/Index.HTML") Hascii eq_refl).
Defined.

End NavigationFacts.

(* ===================================================================== *)
(** * Properties of the plugin validation *)
(* ===================================================================== *)

Module PluginValidationFacts.
Import JS.
Import PluginValidation.

Section Facts.

Variable env : gmap (list N) (list N).
Variable providedConfig : option (gmap (list N) (list N)).

Local Abbreviation checkParam := (checkParam env providedConfig).
Local Abbreviation blocking := (blocking env providedConfig).
Local Abbreviation validatePluginConfig :=
  (validatePluginConfig env providedConfig).

(** What one turn of the loop adds to [errors]. *)
Lemma checkParam_errors acc param :
  (checkParam acc param).1 =
    acc.1 ++ (if blocking param then [requiredIssue param] else []).
Proof.
  destruct acc as [errs warns]. unfold PluginValidation.checkParam,
    PluginValidation.blocking, requiredIssue.
  destruct (required param); cbn [negb andb fst]; [|by rewrite app_nil_r].
  destruct (notSet (valueFor env providedConfig (key param)));
    cbn [andb fst].
  - destruct (defaultValue param) as [[|c def]|]; cbn [fst]; try done.
    by rewrite app_nil_r.
  - destruct (sensitive param); cbn [fst]; by rewrite app_nil_r.
Qed.

Lemma foldl_checkParam_errors defs acc :
  (foldl checkParam acc defs).1 =
    acc.1 ++ (requiredIssue <$> filter (λ p, blocking p = true) defs).
Proof.
  revert acc. induction defs as [|param defs IH]; intros acc.
  - cbn. by rewrite app_nil_r.
  - cbn [foldl]. rewrite IH, checkParam_errors, filter_cons.
    destruct (blocking param) eqn:Hb.
    + rewrite decide_True by done. rewrite fmap_cons, <- app_assoc. done.
    + rewrite decide_False by done. by rewrite app_nil_r.
Qed.

Lemma validate_errors pluginId category envKey configKeys first more :
  errors (validatePluginConfig pluginId category envKey configKeys
            (Some (first :: more))) =
    requiredIssue <$> filter (λ p, blocking p = true) (first :: more).
Proof.
  unfold PluginValidation.validatePluginConfig.
  pose proof (foldl_checkParam_errors (first :: more) ([], [])) as Hfold.
  destruct (foldl checkParam ([], []) (first :: more)) as [errs warns].
  exact Hfold.
Qed.

Lemma validate_valid pluginId category envKey configKeys paramDefs :
  valid (validatePluginConfig pluginId category envKey configKeys paramDefs)
    = bool_decide
        (errors (validatePluginConfig pluginId category envKey configKeys
                   paramDefs) = []).
Proof.
  unfold PluginValidation.validatePluginConfig.
  destruct (match paramDefs with
            | Some (first :: more) => foldl checkParam ([], []) (first :: more)
            | _ => match envKey with
                   | Some (c :: k) => checkEnvKey env providedConfig (c :: k)
                   | _ => ([], [])
                   end
            end) as [[|e errs] warns]; done.
Qed.

Lemma blank_Forall (v : list N) :
  blank v = true ↔ Forall (λ c, isWhiteSpace c = true) v.
Proof.
  unfold blank. induction v as [|c v IH]; cbn.
  - split; [by constructor|done].
  - rewrite andb_true_iff, IH, Forall_cons. done.
Qed.

Lemma trimStart_nil (v : list N) :
  trimStart v = [] ↔ Forall (λ c, isWhiteSpace c = true) v.
Proof.
  induction v as [|c v IH]; cbn.
  - split; [by constructor|done].
  - rewrite Forall_cons. destruct (isWhiteSpace c).
    + rewrite IH. tauto.
    + split; [done|]. by intros [? _].
Qed.

Lemma trimStart_white (v : list N) :
  Forall (λ c, isWhiteSpace c = true) (trimStart v) →
  Forall (λ c, isWhiteSpace c = true) v.
Proof.
  induction v as [|c v IH]; cbn; [done|].
  destruct (isWhiteSpace c) eqn:Hc; [|done].
  intros Hv. constructor; [done|]. by apply IH.
Qed.

(** [trim] empties the blank strings and no others. *)
Lemma trim_nil (v : list N) : trim v = [] ↔ blank v = true.
Proof.
  rewrite blank_Forall. unfold trim, trimEnd. split.
  - intros Hnil. apply trimStart_white.
    apply (f_equal reverse) in Hnil.
    rewrite reverse_involutive, reverse_nil in Hnil.
    apply trimStart_nil in Hnil. by rewrite Forall_reverse in Hnil.
  - intros Hv. apply trimStart_nil in Hv. by rewrite Hv.
Qed.

Lemma notSet_Some (v : list N) : notSet (Some v) = blank v.
Proof.
  destruct (blank v) eqn:Hb.
  - apply trim_nil in Hb. unfold notSet. rewrite Hb. by destruct v.
  - unfold notSet. destruct v as [|c v]; [done|].
    destruct (trim (c :: v)) eqn:Htrim; [|done].
    apply trim_nil in Htrim. congruence.
Qed.

Lemma notSet_valueFor (k : list N) :
  notSet (valueFor env providedConfig k) = unset env providedConfig k.
Proof.
  unfold valueFor, unset.
  destruct providedConfig as [provided|]; cbn.
  - destruct (provided !! k) as [v|]; cbn; [apply notSet_Some|].
    destruct (env !! k) as [v|]; [apply notSet_Some|done].
  - destruct (env !! k) as [v|]; [apply notSet_Some|done].
Qed.

Lemma blocking_missing (p : PluginParamInfo) :
  blocking p = missing env providedConfig p.
Proof.
  unfold PluginValidation.blocking, missing. rewrite notSet_valueFor.
  destruct (required p), (unset env providedConfig (key p)),
    (defaultValue p) as [[|c def]|]; done.
Qed.

(** X13. With parameter definitions given, none of which is required
    under a name that objects inherit from [Object.prototype], the errors
    are, in the order of the definitions, one for each parameter that is
    required, has no value (neither provided nor in the environment, or
    only white space) and has no default; the error carries the key as
    its field and the key followed by [ is required but not set] as its
    message. The configuration is valid exactly when there is no such
    parameter: warnings, a wrong prefix or a short value, never make it
    invalid. *)
Theorem validatePluginConfig_errors_are_missing_required :
  ∀ (pluginId category : list N) (envKey : option (list N))
    (configKeys : list (list N)) (first : PluginParamInfo)
    (more : list PluginParamInfo),
    (∀ p, p ∈ first :: more → required p = true →
          key p ∉ inheritedNames) →
    let result := validatePluginConfig pluginId category envKey configKeys
                    (Some (first :: more)) in
    errors result =
      (λ p, {| field := key p;
               message := key p ++ u " is required but not set" |})
        <$> filter (λ p, missing env providedConfig p = true)
              (first :: more)
    ∧ (valid result = true ↔
       ∀ p, p ∈ first :: more → missing env providedConfig p = false).
Proof.
  intros pluginId category envKey configKeys first more _ result.
  assert (Hfilter :
    filter (λ p, blocking p = true) (first :: more) =
    filter (λ p, missing env providedConfig p = true) (first :: more)).
  { apply list_filter_iff. intros p. by rewrite blocking_missing. }
  assert (Herr : errors result =
    requiredIssue <$>
      filter (λ p, missing env providedConfig p = true) (first :: more)).
  { unfold result. by rewrite validate_errors, Hfilter. }
  split; [exact Herr|]. unfold result at 1. rewrite validate_valid.
  fold result. rewrite Herr, bool_decide_eq_true.
  split.
  - intros Hnil%fmap_nil_inv p Hp.
    destruct (missing env providedConfig p) eqn:Hb; [|done].
    by destruct (filter_nil_not_elem_of _ _ p Hnil Hb).
  - intros Hall.
    destruct (filter (λ p, missing env providedConfig p = true)
                (first :: more)) as [|p rest] eqn:Hlist; [done|].
    assert (Hin : p ∈ filter (λ p, missing env providedConfig p = true)
                        (first :: more))
      by (rewrite Hlist; left).
    apply list_elem_of_filter in Hin as [Hb Hin].
    by rewrite (Hall p Hin) in Hb.
Qed.

(** X15. Only required parameters are ever reported: every error and
    every warning carries, as its field, the key of a parameter of the
    definitions that is required. *)
Theorem validatePluginConfig_reports_required_only :
  ∀ (pluginId category : list N) (envKey : option (list N))
    (configKeys : list (list N)) (first : PluginParamInfo)
    (more : list PluginParamInfo) (issue : Issue),
    let result := validatePluginConfig pluginId category envKey configKeys
                    (Some (first :: more)) in
    issue ∈ errors result ++ warnings result →
    ∃ p, p ∈ first :: more ∧ required p = true ∧ key p = field issue.
Proof.
  intros pluginId category envKey configKeys first more issue result.
  set (ok := λ (defs : list PluginParamInfo) (i : Issue),
         ∃ p, p ∈ defs ∧ required p = true ∧ key p = field i).
  assert (Hstep : ∀ defs seen acc,
    (∀ i, i ∈ acc.1 ++ acc.2 → ok (seen ++ defs) i) →
    ∀ i, i ∈ (foldl checkParam acc defs).1 ++ (foldl checkParam acc defs).2 →
         ok (seen ++ defs) i).
  { induction defs as [|param defs IH]; intros seen acc Hacc; [done|].
    cbn [foldl]. replace (seen ++ param :: defs) with ((seen ++ [param]) ++ defs)
      by (by rewrite <- app_assoc).
    apply IH. intros i Hi. rewrite <- app_assoc. cbn [app].
    assert (Hparam : required param = true → key param = field i →
                     ok (seen ++ param :: defs) i).
    { intros Hreq Hkey. exists param. split; [|done].
      apply elem_of_app. right. left. }
    destruct acc as [errs warns].
    unfold PluginValidation.checkParam in Hi.
    destruct (required param) eqn:Hreq; cbn [negb] in Hi; [|by apply Hacc].
    destruct (notSet (valueFor env providedConfig (key param))).
    - destruct (defaultValue param) as [[|c def]|]; cbn [fst snd] in Hi;
        rewrite ?app_assoc in Hi;
        repeat (apply elem_of_app in Hi as [Hi|Hi]);
        try (apply list_elem_of_singleton in Hi as ->; by apply Hparam);
        apply Hacc; cbn [fst snd]; apply elem_of_app; auto.
    - unfold prefixWarning, shortWarning in Hi.
      destruct (sensitive param); cbn [fst snd] in Hi;
        repeat (apply elem_of_app in Hi as [Hi|Hi]);
        try (apply Hacc; cbn [fst snd]; apply elem_of_app; by auto);
        repeat match type of Hi with
               | context [match ?x with _ => _ end] => destruct x
               end;
        try (by apply elem_of_nil in Hi);
        apply list_elem_of_singleton in Hi as ->; by apply Hparam. }
  intros Hissue.
  apply (Hstep (first :: more) [] ([], []));
    [intros i Hi; cbn in Hi; by apply elem_of_nil in Hi|].
  unfold result, PluginValidation.validatePluginConfig in Hissue.
  by destruct (foldl checkParam ([], []) (first :: more)).
Qed.

End Facts.

(** A value found in [providedConfig] is the value, whatever the
    environment holds. *)
Lemma valueFor_provided env provided k :
  is_Some (provided !! k) → valueFor env (Some provided) k = provided !! k.
Proof. intros [v Hv]. unfold valueFor. cbn. by rewrite Hv. Qed.


(* --------------------------------------------------------------------- *)
(** ** The theorems at sample inputs *)
(* --------------------------------------------------------------------- *)

Lemma anthropicParams_cases (P : PluginParamInfo → Prop) :
  Forall P Cases.anthropicParams → ∀ p, p ∈ Cases.anthropicParams → P p.
Proof. intros HP p Hp. by eapply Forall_forall. Qed.

Lemma anthropicParams_not_inherited :
  ∀ p, p ∈ Cases.anthropicParams → required p = true →
       key p ∉ inheritedNames.
Proof.
  apply (anthropicParams_cases
           (λ p, required p = true → key p ∉ inheritedNames)).
  repeat constructor; intros _;
    match goal with
    | |- ?k ∉ inheritedNames =>
        apply (bool_decide_unpack (k ∉ inheritedNames)); by vm_compute
    end.
Qed.

(** The key provided blank over an environment that has it: one error,
    for the key; with an odd key provided: valid, with warnings only. *)
Lemma validatePluginConfig_errors_are_missing_required_witness :
  let blank := validatePluginConfig Cases.envWithKey (Some Cases.blankKey)
                 (u "anthropic") (u "ai-provider") None []
                 (Some Cases.anthropicParams) in
  let odd := validatePluginConfig Cases.envWithKey (Some Cases.oddKey)
               (u "anthropic") (u "ai-provider") None []
               (Some Cases.anthropicParams) in
  ((∀ p, p ∈ Cases.anthropicParams → required p = true →
         key p ∉ inheritedNames)
   ∧ (∀ p, p ∈ Cases.anthropicParams →
           missing Cases.envWithKey (Some Cases.oddKey) p = false))
  ∧ errors blank =
      [{| field := u "ANTHROPIC_API_KEY";
          message := u "ANTHROPIC_API_KEY is required but not set" |}]
  ∧ valid odd = true.
Proof.
  intros blank odd.
  assert (Hnone : ∀ p, p ∈ Cases.anthropicParams →
            missing Cases.envWithKey (Some Cases.oddKey) p = false).
  { apply anthropicParams_cases. by repeat constructor. }
  split; [split; [exact anthropicParams_not_inherited|exact Hnone]|]. split.
  - exact (proj1 (validatePluginConfig_errors_are_missing_required
      Cases.envWithKey (Some Cases.blankKey) (u "anthropic")
      (u "ai-provider") None [] _ _ anthropicParams_not_inherited)).
  - exact (proj2 (proj2 (validatePluginConfig_errors_are_missing_required
      Cases.envWithKey (Some Cases.oddKey) (u "anthropic")
      (u "ai-provider") None [] _ _ anthropicParams_not_inherited)) Hnone).
Defined.

(** The warning about the prefix of the odd key belongs to the required
    parameter ANTHROPIC_API_KEY. *)
Lemma validatePluginConfig_reports_required_only_witness :
  let odd := validatePluginConfig Cases.envWithKey (Some Cases.oddKey)
               (u "anthropic") (u "ai-provider") None []
               (Some Cases.anthropicParams) in
  let issue :=
    {| field := u "ANTHROPIC_API_KEY";
       message := shortMessage (u "ANTHROPIC_API_KEY") 3 |} in
  issue ∈ errors odd ++ warnings odd
  ∧ ∃ p, p ∈ Cases.anthropicParams ∧ required p = true
         ∧ key p = u "ANTHROPIC_API_KEY".
Proof.
  intros odd issue.
  assert (Hin : issue ∈ errors odd ++ warnings odd).
  { apply (bool_decide_unpack (issue ∈ errors odd ++ warnings odd)).
    by vm_compute. }
  split; [exact Hin|].
  exact (validatePluginConfig_reports_required_only
    Cases.envWithKey (Some Cases.oddKey) (u "anthropic") (u "ai-provider")
    None [] _ _ issue Hin).
Defined.


End PluginValidationFacts.

(* ===================================================================== *)
(** * Properties of the terminal links *)
(* ===================================================================== *)

Module LinksFacts.
Import JS Links.

Lemma escapes_app (a b : list N) : escapes (a ++ b) = escapes a + escapes b.
Proof. unfold escapes. by rewrite filter_app, length_app. Qed.

Lemma escapes_removeAll (s : list N) : escapes (removeAll ESC s) = 0.
Proof.
  unfold escapes, removeAll. induction s as [|c s IH]; [done|].
  rewrite filter_cons. case_decide as Hc; [|done].
  rewrite filter_cons. by rewrite decide_False by done.
Qed.

(** X16. Escape characters in the label or the URL never reach the
    output of [formatTerminalLink]: when no fallback text is given, the
    result holds no escape at all as plain text, and as a hyperlink only
    the two escapes that frame it. *)
Theorem formatTerminalLink_strips_escapes :
  ∀ (isTTY : bool) (label url : list N) (opts : option LinkOptions),
    opts ≫= fallback = None →
    escapes (formatTerminalLink isTTY label url opts)
      = if allowed isTTY opts then 2 else 0.
Proof.
  intros isTTY label url opts Hfallback. unfold formatTerminalLink.
  rewrite Hfallback. destruct (allowed isTTY opts); cbn [negb].
  - rewrite !escapes_app, !escapes_removeAll. done.
  - rewrite !escapes_app, !escapes_removeAll. done.
Qed.

(** X17. Where hyperlinks are not allowed, [formatDocsLink] gives the
    fallback text when there is one and the bare URL otherwise, and the
    label plays no part. The bare URL begins with "http": it is the
    trimmed path when that begins with "http"; otherwise it is the docs
    root followed by the trimmed path when that begins with a slash, and
    the docs root, a slash and the trimmed path when it does not, so that
    exactly one slash is put in where there is none and none where there
    is one. *)
Theorem formatDocsLink_without_hyperlinks :
  ∀ (isTTY : bool) (path : list N) (label : option (list N))
    (opts : option LinkOptions),
    allowed isTTY opts = false →
    let result := formatDocsLink isTTY path label opts in
    (∀ text, opts ≫= fallback = Some text → result = text)
    ∧ (opts ≫= fallback = None →
       startsWith result (u "http") = true
       ∧ (startsWith (trim path) (u "http") = true → result = trim path)
       ∧ (startsWith (trim path) (u "http") = false →
          (∀ rest, trim path = 47%N :: rest →
                   result = u "https://docs.milady.ai" ++ 47%N :: rest)
          ∧ ((∀ rest, trim path ≠ 47%N :: rest) →
             result = u "https://docs.milady.ai" ++ 47%N :: trim path)))
    ∧ (∀ label', formatDocsLink isTTY path label' opts = result).
Proof.
  intros isTTY path label opts Hallow result.
  assert (Hplain : ∀ l, formatDocsLink isTTY path l opts =
    from_option id
      (if startsWith (trim path) (u "http") then trim path
       else DOCS_ROOT ++ (if startsWith (trim path) (u "/") then trim path
                          else u "/" ++ trim path))
      (opts ≫= fallback)).
  { intros l. unfold formatDocsLink, formatTerminalLink.
    assert (Hsame : allowed isTTY
              (Some {| fallback :=
                         Some (from_option id
                           (if startsWith (trim path) (u "http") then trim path
                            else DOCS_ROOT ++
                              (if startsWith (trim path) (u "/") then trim path
                               else u "/" ++ trim path))
                           (opts ≫= fallback));
                       force := opts ≫= force |}) = allowed isTTY opts)
      by done.
    cbv zeta. rewrite Hsame, Hallow. done. }
  split; [|split].
  - intros text Htext. unfold result. by rewrite Hplain, Htext.
  - intros Hnone. unfold result. rewrite Hplain, Hnone. cbn [from_option id].
    destruct (startsWith (trim path) (u "http")) eqn:Hhttp.
    + split; [done|]. split; [done|]. by intros.
    + split; [done|]. split; [by intros|]. intros _.
      destruct (startsWith (trim path) (u "/")) eqn:Hslash.
      * destruct (trim path) as [|c rest] eqn:Htrim; [done|].
        cbn in Hslash. rewrite andb_true_r in Hslash.
        apply bool_decide_eq_true in Hslash as <-. split.
        -- by intros rest' [= <-].
        -- intros Hno. by destruct (Hno rest).
      * split.
        -- intros rest Hrest. rewrite Hrest in Hslash. cbn in Hslash.
           by rewrite bool_decide_eq_true_2 in Hslash.
        -- by intros _.
  - intros label'. unfold result. by rewrite !Hplain.
Qed.

(** A label and a URL that hold escapes, in a terminal and outside. *)
Lemma formatTerminalLink_strips_escapes_witness :
  let label := [ESC] ++ u "[31mDocs" in
  let url := u "https://docs.milady.ai/" ++ [ESC] in
  (@None LinkOptions ≫= fallback = None)
  ∧ escapes (formatTerminalLink true label url None) = 2
  ∧ escapes (formatTerminalLink false label url None) = 0.
Proof.
  intros label url. split; [reflexivity|]. split.
  - exact (formatTerminalLink_strips_escapes true label url None eq_refl).
  - exact (formatTerminalLink_strips_escapes false label url None eq_refl).
Defined.

(** The paths " start " and "/start" outside a terminal: one slash
    either way. *)
Lemma formatDocsLink_without_hyperlinks_witness :
  let result :=
    formatDocsLink false (u " start ") (Some (u "Getting started")) None in
  let slashed := formatDocsLink false (u "/start") None None in
  (allowed false None = false ∧ @None LinkOptions ≫= fallback = None
   ∧ startsWith (trim (u " start ")) (u "http") = false
   ∧ (∀ rest, trim (u " start ") ≠ 47%N :: rest)
   ∧ startsWith (trim (u "/start")) (u "http") = false
   ∧ trim (u "/start") = 47%N :: u "start")
  ∧ startsWith result (u "http") = true
  ∧ result = u "https://docs.milady.ai/start"
  ∧ slashed = u "https://docs.milady.ai/start"
  ∧ formatDocsLink false (u " start ") None None = result.
Proof.
  intros result slashed.
  assert (Hbarepath : ∀ rest, trim (u " start ") ≠ 47%N :: rest)
    by (intros rest Heq; discriminate Heq).
  split; [by repeat split|].
  destruct (formatDocsLink_without_hyperlinks false (u " start ")
    (Some (u "Getting started")) None eq_refl) as (_ & Hbare & Hlabel).
  destruct (Hbare eq_refl) as (Hhttp & _ & Hroot).
  destruct (formatDocsLink_without_hyperlinks false (u "/start")
    None None eq_refl) as (_ & Hbare' & _).
  destruct (Hbare' eq_refl) as (_ & _ & Hroot').
  split; [exact Hhttp|].
  split; [exact (proj2 (Hroot eq_refl) Hbarepath)|].
  split; [exact (proj1 (Hroot' eq_refl) (u "start") eq_refl)|].
  exact (Hlabel None).
Defined.

End LinksFacts.

(* ===================================================================== *)
(** * Properties of the version *)
(* ===================================================================== *)

Module VersionFacts.
Import JS Version.

(** X18. [VERSION] is never the empty string: it is the first of the
    build define, the environment variable, the version of package.json
    and the version of a build-info file that is a string and not empty,
    and "0.0.0" when there is none; a file that cannot be loaded or an
    empty value is passed over. *)
Theorem VERSION_is_never_empty :
  ∀ (buildDefine bundledVersion : option (list N))
    (requireVersion : list N → option (option (list N))),
    let version := VERSION buildDefine bundledVersion requireVersion in
    version ≠ []
    ∧ (∀ c v, buildDefine = Some (c :: v) → version = c :: v)
    ∧ (buildDefine = None ∨ buildDefine = Some [] →
       bundledVersion = None ∨ bundledVersion = Some [] →
       (∀ path, requireVersion path = None
                ∨ requireVersion path = Some None
                ∨ requireVersion path = Some (Some [])) →
       version = u "0.0.0").
Proof.
  intros buildDefine bundledVersion requireVersion version.
  split; [|split].
  - unfold version, VERSION, orElse.
    destruct buildDefine as [[|? ?]|], bundledVersion as [[|? ?]|],
      (readVersionFromPackageJson requireVersion) as [[|? ?]|],
      (readVersionFromBuildInfo requireVersion) as [[|? ?]|]; done.
  - intros c v ->. done.
  - intros Hdefine Hbundled Hfiles. unfold version, VERSION.
    assert (Hpkg : orElse (readVersionFromPackageJson requireVersion)
              (orElse (readVersionFromBuildInfo requireVersion)
                 (Some (u "0.0.0"))) = Some (u "0.0.0")).
    { unfold readVersionFromPackageJson, readVersionFromBuildInfo.
      cbn [firstVersion].
      destruct (Hfiles (u "../package.json")) as [-> | [-> | ->]];
        destruct (Hfiles (u "../build-info.json")) as [-> | [-> | ->]];
        destruct (Hfiles (u "./build-info.json")) as [-> | [-> | ->]];
        done. }
    destruct Hdefine as [-> | ->], Hbundled as [-> | ->];
      cbn [orElse]; by rewrite Hpkg.
Qed.

(** No define, an empty environment variable, a package.json that cannot
    be loaded and build-info files without version. *)
Lemma VERSION_is_never_empty_witness :
  let requireVersion (path : list N) : option (option (list N)) :=
    if decide (path = u "../package.json") then None else Some None in
  ((@None (list N) = None ∨ @None (list N) = Some [])
   ∧ (Some (@nil N) = None ∨ Some (@nil N) = Some [])
   ∧ ∀ path, requireVersion path = None ∨ requireVersion path = Some None
             ∨ requireVersion path = Some (Some []))
  ∧ VERSION None (Some []) requireVersion = u "0.0.0".
Proof.
  intros requireVersion.
  assert (Hfiles : ∀ path, requireVersion path = None
            ∨ requireVersion path = Some None
            ∨ requireVersion path = Some (Some [])).
  { intros path. unfold requireVersion. case_decide; auto. }
  split; [split; [by left|split; [by right|exact Hfiles]]|].
  exact (proj2 (proj2 (VERSION_is_never_empty None (Some []) requireVersion))
    (or_introl eq_refl) (or_intror eq_refl) Hfiles).
Defined.

End VersionFacts.

(* ===================================================================== *)
(** * Properties of the workspace context *)
(* ===================================================================== *)

Module WorkspaceFacts.
Import JS Workspace.

Lemma totalLength_snoc (sections : list (list N)) (section : list N) :
  totalLength (sections ++ [section]) = totalLength sections + length section.
Proof.
  unfold totalLength. induction sections as [|x sections IH]; cbn; [lia|].
  rewrite IH. lia.
Qed.

Section Facts.

Variable toLocaleString : nat → list N.

Local Abbreviation notice := (notice toLocaleString).
Local Abbreviation truncate := (truncate toLocaleString).
Local Abbreviation sectionOf := (sectionOf toLocaleString).
Local Abbreviation collect := (collect toLocaleString).
Local Abbreviation buildContext := (buildContext toLocaleString).

Lemma collect_within_cap files maxChars :
  ∀ sections total,
    total = totalLength sections →
    length sections ≤ 1 ∨ total ≤ MAX_TOTAL_WORKSPACE_CHARS →
    length (collect files maxChars sections total) ≤ 1
    ∨ totalLength (collect files maxChars sections total)
      ≤ MAX_TOTAL_WORKSPACE_CHARS.
Proof.
  induction files as [|f files IH]; intros sections total Htotal Hinv.
  - cbn [Workspace.collect]. subst total. exact Hinv.
  - cbn [Workspace.collect]. destruct (skipped f); [by apply IH|].
    cbv zeta.
    destruct (MAX_TOTAL_WORKSPACE_CHARS <?
                total + length (sectionOf f maxChars))%nat eqn:Hover;
      destruct (0 <? length sections)%nat eqn:Hsome; cbn [andb].
    + subst total. exact Hinv.
    + apply IH; [by rewrite totalLength_snoc, Htotal|].
      apply Nat.ltb_ge in Hsome. left. rewrite length_app. cbn [length]. lia.
    + apply IH; [by rewrite totalLength_snoc, Htotal|].
      apply Nat.ltb_ge in Hover. by right.
    + apply IH; [by rewrite totalLength_snoc, Htotal|].
      apply Nat.ltb_ge in Hover. by right.
Qed.



Lemma collect_skips files maxChars :
  ∀ sections total,
    collect (filter (λ f, skipped f = false) files) maxChars sections total
      = collect files maxChars sections total.
Proof.
  induction files as [|f files IH]; intros sections total; [done|].
  rewrite filter_cons. cbn [Workspace.collect].
  destruct (skipped f) eqn:Hskip.
  - rewrite decide_False by done. apply IH.
  - rewrite decide_True by done. cbn [Workspace.collect]. rewrite Hskip.
    cbv zeta.
    destruct ((MAX_TOTAL_WORKSPACE_CHARS <?
                 total + length (sectionOf f maxChars))%nat
              && (0 <? length sections)%nat); [done|]. apply IH.
Qed.


End Facts.



End WorkspaceFacts.

(* ===================================================================== *)
(** * Properties of the configuration loader *)
(* ===================================================================== *)

Module ConfigEnvFacts.
Import JS ConfigEnv.

Lemma exportEnvVars_cons k v envVars env :
  exportEnvVars ((k, v) :: envVars) env =
    exportEnvVars envVars
      (if negb (truthy env k) then assign k v env else env).
Proof. done. Qed.

(** What one turn of the loop leaves under another name. *)
Lemma turn_other env k k' v' :
  k' ≠ k →
  (if negb (truthy env k') then assign k' v' env else env) !! k = env !! k.
Proof.
  intros Hne. destruct (truthy env k'); cbn [negb]; [done|].
  unfold assign. case_bool_decide; [|done]. by rewrite lookup_insert_ne.
Qed.

Lemma exportEnvVars_kept envVars env k c v :
  env !! k = Some (c :: v) → exportEnvVars envVars env !! k = Some (c :: v).
Proof.
  revert env.
  induction envVars as [|[k' v'] envVars IH]; intros env Hk; [done|].
  rewrite exportEnvVars_cons. apply IH.
  destruct (decide (k' = k)) as [->|Hne].
  - unfold truthy. by rewrite Hk.
  - by rewrite turn_other.
Qed.

Lemma exportEnvVars_other envVars env k :
  k ∉ envVars.*1 → exportEnvVars envVars env !! k = env !! k.
Proof.
  revert env.
  induction envVars as [|[k' v'] envVars IH]; intros env Hk; [done|].
  rewrite fmap_cons in Hk. cbn in Hk.
  apply not_elem_of_cons in Hk as [Hne Hk].
  rewrite exportEnvVars_cons, IH by done.
  by rewrite turn_other.
Qed.

(** A name that is not set and cannot be set, or reads as set, stays
    unset. *)
Lemma exportEnvVars_never envVars env k :
  env !! k = None →
  k ∈ inheritedNames ∨ k = [] ∨ 61%N ∈ k →
  exportEnvVars envVars env !! k = None.
Proof.
  intros Hk Hwhy. revert env Hk.
  induction envVars as [|[k' v'] envVars IH]; intros env Hk; [done|].
  rewrite exportEnvVars_cons. apply IH.
  destruct (decide (k' = k)) as [->|Hne]; [|by rewrite turn_other].
  unfold truthy, assign. rewrite Hk.
  case_bool_decide; cbn [negb]; [done|].
  case_bool_decide as Hset; [|done].
  destruct Hset as [Hnonempty Hequals].
  by destruct Hwhy as [?|[?|?]].
Qed.

(** X23. The variables of the configuration never replace what the
    environment already has: a variable that is set and not empty keeps
    its value, and a variable the configuration does not name is left as
    it is. A variable the configuration names (once) that is unset or
    empty gets the value of the configuration, when its name is one the
    environment takes (not empty, without [=]) and not one that objects
    inherit from [Object.prototype]; an unset variable of any other name
    stays unset. *)
Theorem exportEnvVars_fills_gaps_only :
  ∀ (envVars : list (list N * list N)) (env : gmap (list N) (list N))
    (k : list N),
    (∀ c v, env !! k = Some (c :: v) →
            exportEnvVars envVars env !! k = Some (c :: v))
    ∧ (k ∉ envVars.*1 → exportEnvVars envVars env !! k = env !! k)
    ∧ (∀ v, NoDup envVars.*1 → (k, v) ∈ envVars →
            env !! k = None ∨ env !! k = Some [] →
            k ∉ inheritedNames → k ≠ [] → 61%N ∉ k →
            exportEnvVars envVars env !! k = Some v)
    ∧ (env !! k = None →
       k ∈ inheritedNames ∨ k = [] ∨ 61%N ∈ k →
       exportEnvVars envVars env !! k = None).
Proof.
  intros envVars env k. split; [|split; [|split]].
  - intros c v. apply exportEnvVars_kept.
  - apply exportEnvVars_other.
  - intros v Hdup Hin Hunset Hown Hnonempty Hequals. revert env Hdup Hin Hunset.
    induction envVars as [|[k' v'] envVars IH]; intros env Hdup Hin Hunset.
    + by apply elem_of_nil in Hin.
    + rewrite fmap_cons in Hdup. cbn in Hdup.
      apply NoDup_cons in Hdup as [Hfresh Hdup].
      rewrite exportEnvVars_cons.
      apply elem_of_cons in Hin as [[= <- <-]|Hin].
      * rewrite exportEnvVars_other by done.
        assert (Hfalse : truthy env k = false).
        { unfold truthy.
          destruct Hunset as [-> | ->]; [|done].
          by rewrite bool_decide_eq_false_2. }
        rewrite Hfalse. cbn [negb]. unfold assign.
        rewrite bool_decide_eq_true_2 by done. apply lookup_insert_eq.
      * assert (Hne : k' ≠ k).
        { intros ->. apply Hfresh.
          apply (list_elem_of_fmap_2 fst) in Hin. done. }
        apply IH; [done..|]. by rewrite turn_other.
  - apply exportEnvVars_never.
Qed.

(** The configuration names OPENAI_API_KEY, which the environment has,
    LOG_LEVEL, which it has not, and the names toString and A=B, which
    stay unset. *)
Lemma exportEnvVars_fills_gaps_only_witness :
  let envVars := [(u "OPENAI_API_KEY", u "sk-from-config");
                  (u "LOG_LEVEL", u "debug");
                  (u "toString", u "text");
                  (u "A=B", u "c")] in
  let env : gmap (list N) (list N) :=
    {[ u "OPENAI_API_KEY" := u "sk-from-shell" ]} in
  (NoDup envVars.*1 ∧ (u "LOG_LEVEL", u "debug") ∈ envVars
   ∧ (env !! u "LOG_LEVEL" = None ∨ env !! u "LOG_LEVEL" = Some [])
   ∧ ((u "LOG_LEVEL") ∉ inheritedNames) ∧ u "LOG_LEVEL" ≠ []
   ∧ (61%N ∉ (u "LOG_LEVEL"))
   ∧ ((u "HOME") ∉ envVars.*1)
   ∧ ((u "toString") ∈ inheritedNames) ∧ (61%N ∈ (u "A=B")))
  ∧ exportEnvVars envVars env !! u "OPENAI_API_KEY" = Some (u "sk-from-shell")
  ∧ exportEnvVars envVars env !! u "LOG_LEVEL" = Some (u "debug")
  ∧ exportEnvVars envVars env !! u "HOME" = env !! u "HOME"
  ∧ exportEnvVars envVars env !! u "toString" = None
  ∧ exportEnvVars envVars env !! u "A=B" = None.
Proof.
  intros envVars env.
  assert (Hdup : NoDup envVars.*1).
  { apply (bool_decide_unpack (NoDup envVars.*1)). by vm_compute. }
  assert (Hin : (u "LOG_LEVEL", u "debug") ∈ envVars) by (right; left).
  assert (Hunset : env !! u "LOG_LEVEL" = None ∨ env !! u "LOG_LEVEL" = Some [])
    by (left; reflexivity).
  assert (Hown : u "LOG_LEVEL" ∉ inheritedNames).
  { apply (bool_decide_unpack (u "LOG_LEVEL" ∉ inheritedNames)).
    by vm_compute. }
  assert (Hnonempty : u "LOG_LEVEL" ≠ []) by (intros Heq; discriminate Heq).
  assert (Hequals : 61%N ∉ u "LOG_LEVEL").
  { apply (bool_decide_unpack (61%N ∉ u "LOG_LEVEL")). by vm_compute. }
  assert (Hhome : u "HOME" ∉ envVars.*1).
  { apply (bool_decide_unpack (u "HOME" ∉ envVars.*1)). by vm_compute. }
  assert (Hinherited : u "toString" ∈ inheritedNames).
  { apply (bool_decide_unpack (u "toString" ∈ inheritedNames)).
    by vm_compute. }
  assert (Hsign : 61%N ∈ u "A=B") by (right; left).
  split; [by repeat split|]. split; [|split; [|split; [|split]]].
  - exact (proj1 (exportEnvVars_fills_gaps_only envVars env
      (u "OPENAI_API_KEY")) _ _ eq_refl).
  - exact (proj1 (proj2 (proj2 (exportEnvVars_fills_gaps_only envVars env
      (u "LOG_LEVEL")))) (u "debug") Hdup Hin Hunset Hown Hnonempty Hequals).
  - exact (proj1 (proj2 (exportEnvVars_fills_gaps_only envVars env
      (u "HOME"))) Hhome).
  - exact (proj2 (proj2 (proj2 (exportEnvVars_fills_gaps_only envVars env
      (u "toString")))) eq_refl (or_introl Hinherited)).
  - exact (proj2 (proj2 (proj2 (exportEnvVars_fills_gaps_only envVars env
      (u "A=B")))) eq_refl (or_intror (or_intror Hsign))).
Defined.

End ConfigEnvFacts.
